(** * timber: the code generator [gen.py]

    A shallow embedding of the code-generation backend: the symbolic
    assembler ([Unit]), the lexical scope resolver ([Namespace]), the frame
    size analyzer ([stack_size]) and the statement and expression generators
    ([gen_stmt], [gen_expr], ...), followed by the properties of the
    specification that concern them.

    Conventions of the embedding.
    - Python integers are [Z]; instruction indices are [Z] as well, since the
      source subtracts one from them and uses them as dictionary keys.
    - The methods of [Unit] mutate the receiver and return it; here each
      method is a function to the updated receiver that takes the receiver
      as its last argument, so that the source's call chain
      [self.f(a).g(b)] reads [self |> f a |> g b].
    - [labels], [comments], [inline_comments] and the frames of the scope
      resolver are dictionaries that are only looked up, inserted into and
      merged: they are [gmap]s.  [jumps] is iterated by [link], and which
      exception [link] raises depends on the iteration order, so it is kept
      as the list of its items in insertion order.
    - An [Instr] is a mutable object, and [instrs] holds references.  A
      unit keeps the fields of its instructions by value, index by index;
      [link], the one method that writes to an [Instr], is given the
      identities of the objects as well, so that an object that sits at
      several indices of [instrs] (after a unit was inserted twice) changes
      at all of them.  [_add_instr] builds a new [Instr] and every generator
      inserts a unit once, so the units of the generators hold no object
      twice.
    - Exceptions are values of [exn]; a computation that may raise returns a
      [result]. *)

From Stdlib Require Import ZArith Lia Ascii String.
From stdpp Require Import base list strings gmap pretty.

#[local] Open Scope string_scope.
#[local] Open Scope Z_scope.
#[local] Open Scope list_scope.

(** ** Exceptions *)

(** [GenError] carries its message, as in the source; the other constructors
    are the built-in exceptions the module can raise. *)
Inductive exn : Type :=
  | GenError (msg : string)
  | TypeError
  | AssertionError
  | IndexError.

Inductive result (A : Type) : Type :=
  | Ok (a : A)
  | Raise (e : exn).
Arguments Ok {A} a.
Arguments Raise {A} e.

Definition unknown_identifier (name : string) : exn :=
  GenError ("Unknown identifier: " +:+ name).

Definition unknown_label (name : string) : exn :=
  GenError ("Unknown label: " +:+ name).

(** ** The target machine's instructions *)

(** Modelled from the spec: the module [vm] ([Val], [Instr], [InstrKind],
    [Program]) is not part of the source.  [InstrKind] lists the kinds the
    generator names, [Val] is an integer, an [Instr] is a kind with an
    optional operand, and a [Program] is an index-addressable sequence of
    instructions whose [here] is the index of the next instruction. *)
Module InstrKind.
Inductive t : Type :=
  | Push | Pop | Dup | Rot | Load | Store
  | Add | Sub | Shl | Shr | And | Or
  | Call | Ret | St | Jmp | JmpF | JmpT
  | Print | Halt.

#[global] Instance eq_dec : EqDecision t.
Proof. unfold EqDecision, Decision. decide equality. Defined.
End InstrKind.

Record Instr : Type := mkInstr { kind : InstrKind.t; arg : option Z }.

#[global] Instance Instr_eq_dec : EqDecision Instr.
Proof. solve_decision. Defined.

Abbreviation Program := (list Instr).

Definition _TOS_ADDR_PTR : Z := 0.
Definition _STACK_BASE : Z := 8.
Definition _DUMMY_ADDR : Z := -9999999.

Definition newline : string := String "010"%char EmptyString.

(** ** Insertion-ordered dictionaries (for [jumps]) *)

Module Dict.
Abbreviation t := (list (Z * string)).

Fixpoint get (k : Z) (d : t) : option string :=
  match d with
  | [] => None
  | (k', v) :: d' => if decide (k' = k) then Some v else get k d'
  end.

(** [d[k] = v]: an existing key keeps its position, a new key goes last. *)
Fixpoint set (k : Z) (v : string) (d : t) : t :=
  match d with
  | [] => [(k, v)]
  | (k', v') :: d' =>
      if decide (k' = k) then (k, v) :: d' else (k', v') :: set k v d'
  end.

(** [d.update(items)] *)
Definition update (d : t) (items : list (Z * string)) : t :=
  foldl (λ acc kv, set kv.1 kv.2 acc) d items.

(** [{f(k): v for k, v in d.items()}] *)
Definition map_keys (f : Z → Z) (d : t) : t :=
  update [] (prod_map f id <$> d).

Definition keys (d : t) : list Z := d.*1.
End Dict.

(** ** Assembler units *)

Notation "u |> f" := (f u) (at level 45, left associativity, only parsing).

Module Unit.
Record t : Type := mk {
  instrs : Program;
  labels : gmap string Z;
  jumps : Dict.t;
  comments : gmap Z string;
  inline_comments : gmap Z string
}.

(** [Unit()] *)
Definition new : t := mk [] ∅ [] ∅ ∅.

(** [self.instrs.here] and [len(self.instrs)] *)
Definition here (self : t) : Z := Z.of_nat (length (instrs self)).

Definition set_instrs (p : Program) (self : t) : t :=
  mk p (labels self) (jumps self) (comments self) (inline_comments self).
Definition set_labels (l : gmap string Z) (self : t) : t :=
  mk (instrs self) l (jumps self) (comments self) (inline_comments self).
Definition set_jumps (j : Dict.t) (self : t) : t :=
  mk (instrs self) (labels self) j (comments self) (inline_comments self).
Definition set_comments (c : gmap Z string) (self : t) : t :=
  mk (instrs self) (labels self) (jumps self) c (inline_comments self).
Definition set_inline_comments (c : gmap Z string) (self : t) : t :=
  mk (instrs self) (labels self) (jumps self) (comments self) c.

(** The class attribute [_next_label_id] is passed in and handed back. *)
Definition new_label (_next_label_id : Z) : string * Z :=
  let id := _next_label_id + 1 in ("__" +:+ pretty id, id).

Definition _add_instr (instr_kind : InstrKind.t) (a : option Z) (self : t)
  : t :=
  set_instrs (instrs self ++ [mkInstr instr_kind a]) self.

(** The merge of the comment at the insertion point with the inserted
    unit's comment at index 0, as [insert] does it for [comments]
    (separator a newline) and [inline_comments] (separator ["; "]).  The
    source writes the merged text into the inserted unit itself; no caller
    reads that unit again, and the model keeps the merged dictionary
    local. *)
Definition merge_at_seam (sep : string) (at_here : option string)
    (c : gmap Z string) : gmap Z string :=
  match at_here, c !! 0 with
  | Some mine, Some theirs => <[0 := mine +:+ sep +:+ theirs]> c
  | _, _ => c
  end.

Definition insert (unit self : t) : t :=
  let addr_offset := here self in
  let offset_labels := (λ addr, addr + addr_offset) <$> labels unit in
  let offset_jumps :=
    Dict.map_keys (λ addr, addr + addr_offset) (jumps unit) in
  let unit_comments :=
    merge_at_seam newline (comments self !! here self) (comments unit) in
  let offset_comments := kmap (λ addr, addr + addr_offset) unit_comments in
  let unit_inline_comments :=
    merge_at_seam "; " (inline_comments self !! here self)
      (inline_comments unit) in
  let offset_inline_comments :=
    kmap (λ addr, addr + addr_offset) unit_inline_comments in
  mk (instrs self ++ instrs unit)
     (offset_labels ∪ labels self)
     (Dict.update (jumps self) offset_jumps)
     (offset_comments ∪ comments self)
     (offset_inline_comments ∪ inline_comments self).

(** Python list indexing: a negative index counts from the end. *)
Definition py_index (p : Program) (i : Z) : option nat :=
  let n := Z.of_nat (length p) in
  if decide (0 ≤ i < n) then Some (Z.to_nat i)
  else if decide (- n ≤ i < 0) then Some (Z.to_nat (n + i))
  else None.

Definition is_jump_kind (k : InstrKind.t) : bool :=
  match k with
  | InstrKind.Jmp | InstrKind.JmpF | InstrKind.JmpT | InstrKind.Call => true
  | _ => false
  end.

(** [instrs] is a list of references to [Instr] objects.  [_add_instr]
    makes a new object, but [insert] extends [self.instrs] with the inserted
    unit's own objects, so a unit that was inserted twice (or into itself)
    holds one object at several indices.  Only [link] writes to an [Instr],
    so only [link] needs to know which indices share an object: [objs] gives
    the identity of the object at each index of [instrs].

    [instr.arg = a] for the object at index [i]: the new operand shows at
    every index that holds this object. *)
Definition set_arg (objs : list nat) (i : nat) (a : Z) (p : Program)
  : Program :=
  imap (λ j instr,
          if bool_decide (objs !! j = objs !! i)
          then mkInstr (kind instr) (Some a)
          else instr) p.

(** One iteration of the loop of [link]. *)
Definition link_step (objs : list nat) (lbls : gmap string Z) (p : Program)
    (addr : Z) (name : string) : result Program :=
  match lbls !! name with
  | None => Raise (unknown_label name)
  | Some target =>
      match py_index p addr with
      | None => Raise IndexError
      | Some i =>
          match p !! i with
          | None => Raise IndexError
          | Some instr =>
              if negb (is_jump_kind (kind instr)) then Raise AssertionError
              else if negb (bool_decide (arg instr = Some _DUMMY_ADDR))
                   then Raise AssertionError
              else Ok (set_arg objs i (target - 1) p)
          end
      end
  end.

Fixpoint link_loop (objs : list nat) (lbls : gmap string Z)
    (items : list (Z * string)) (p : Program) : result Program :=
  match items with
  | [] => Ok p
  | (addr, name) :: rest =>
      match link_step objs lbls p addr name with
      | Ok p' => link_loop objs lbls rest p'
      | Raise e => Raise e
      end
  end.

(** [link] on a unit whose instruction objects are [objs]. *)
Definition link_objs (objs : list nat) (self : t) : result t :=
  match link_loop objs (labels self) (jumps self) (instrs self) with
  | Ok p => Ok (set_instrs p self)
  | Raise e => Raise e
  end.

(** [link] on a unit that holds no object twice: the object at an index is
    named by the index.  The units of the generators are of this kind, since
    every emitter makes its own [Instr] and every generator inserts a unit
    once. *)
Definition link (self : t) : result t :=
  link_objs (seq 0 (length (instrs self))) self.

Definition label (name : string) (self : t) : t :=
  set_labels (<[name := here self]> (labels self)) self.

Definition comment (c : string) (self : t) : t :=
  let idx := here self in
  set_comments
    (match comments self !! idx with
     | None => <[here self := c]> (comments self)
     | Some old => <[idx := old +:+ newline +:+ c]> (comments self)
     end) self.

Definition inline_comment (c : string) (self : t) : t :=
  let idx := here self - 1 in
  set_inline_comments
    (match inline_comments self !! idx with
     | None => <[idx := c]> (inline_comments self)
     | Some old => <[idx := old +:+ "; " +:+ c]> (inline_comments self)
     end) self.

Definition noop : t → t := _add_instr InstrKind.Pop None.
Definition halt : t → t := _add_instr InstrKind.Halt None.
Definition rot : t → t := _add_instr InstrKind.Rot None.
Definition dup : t → t := _add_instr InstrKind.Dup None.
Definition load : t → t := _add_instr InstrKind.Load None.
Definition store : t → t := _add_instr InstrKind.Store None.
Definition add : t → t := _add_instr InstrKind.Add None.
Definition sub : t → t := _add_instr InstrKind.Sub None.
Definition shl : t → t := _add_instr InstrKind.Shl None.
Definition shr : t → t := _add_instr InstrKind.Shr None.
Definition and_ : t → t := _add_instr InstrKind.And None.
Definition or_ : t → t := _add_instr InstrKind.Or None.
Definition ret : t → t := _add_instr InstrKind.Ret None.
Definition st : t → t := _add_instr InstrKind.St None.
Definition pop : t → t := _add_instr InstrKind.Pop None.
Definition print : t → t := _add_instr InstrKind.Print None.
Definition push (a : Z) : t → t := _add_instr InstrKind.Push (Some a).

(** The four emitters of a deferred jump: record the target's name at the
    index of the instruction about to be appended, then append it with the
    sentinel operand. *)
Definition deferred (k : InstrKind.t) (name : string) (self : t) : t :=
  set_jumps (Dict.set (here self) name (jumps self)) self
  |> _add_instr k (Some _DUMMY_ADDR).

Definition call : string → t → t := deferred InstrKind.Call.
Definition jmp : string → t → t := deferred InstrKind.Jmp.
Definition jmp_f : string → t → t := deferred InstrKind.JmpF.
Definition jmp_t : string → t → t := deferred InstrKind.JmpT.

Definition load_tos_ptr (offset : Z) (self : t) : t :=
  if decide (offset = 0) then
    self |> push _TOS_ADDR_PTR |> load
  else
    self |> push _TOS_ADDR_PTR |> load |> push offset |> sub.

Definition store_tos_ptr (self : t) : t :=
  self |> push _TOS_ADDR_PTR |> store.

Definition incr_tos (offset : Z) (self : t) : t :=
  if decide (offset = 0) then self
  else
    self
    |> load_tos_ptr 0
    |> push offset
    |> add
    |> store_tos_ptr
    |> inline_comment ("TOS += " +:+ pretty offset).

(** [assert offset >= 0], then the sequence; there is no test for zero. *)
Definition decr_tos (offset : Z) (self : t) : result t :=
  if decide (offset >= 0) then
    Ok (self
        |> load_tos_ptr 0
        |> push offset
        |> sub
        |> store_tos_ptr
        |> inline_comment ("TOS -= " +:+ pretty offset))
  else Raise AssertionError.

Definition load_tos (offset : Z) (self : t) : t :=
  self
  |> load_tos_ptr offset
  |> load
  |> inline_comment ("Load TOS[" +:+ pretty offset +:+ "]").

Definition store_tos (offset : Z) (self : t) : t :=
  self
  |> load_tos_ptr offset
  |> store
  |> inline_comment ("Store TOS[" +:+ pretty offset +:+ "]").

Definition push_tos (self : t) : t :=
  self
  |> comment "push TOS {"
  |> store_tos 0
  |> incr_tos 1
  |> comment "} push TOS".

Definition pop_tos (self : t) : result t :=
  match self |> comment "pop TOS {" |> decr_tos 1 with
  | Ok u => Ok (u |> load_tos 0 |> comment "} pop TOS")
  | Raise e => Raise e
  end.

(** [fresh] is a class method: it builds on a new unit. *)
Definition fresh : t :=
  new
  |> comment "entrypoint {"
  |> push _STACK_BASE
  |> push _TOS_ADDR_PTR
  |> store
  |> call "main"
  |> halt
  |> comment "} entrypoint".

Definition binary_ops : list (string * t) :=
  [ ("add", new |> add); ("sub", new |> sub); ("shl", new |> shl) ].

Definition unary_ops : list (string * t) :=
  [ ("print", new |> print |> push 0) ].

Definition intrinsics (self : t) : t :=
  let self :=
    foldl (λ self '(name, unit),
             self
             |> comment ("def " +:+ name +:+ " {")
             |> label name
             |> load_tos 1
             |> load_tos 0
             |> insert unit
             |> rot
             |> ret
             |> comment ("} def " +:+ name))
          self binary_ops in
  let self :=
    foldl (λ self '(name, unit),
             self
             |> comment ("def " +:+ name +:+ " {")
             |> label name
             |> load_tos 0
             |> insert unit
             |> rot
             |> ret
             |> comment ("} def " +:+ name))
          self unary_ops in
  let self :=
    self
    |> comment "def exit {"
    |> label "exit"
    |> pop
    |> load_tos 0
    |> halt
    |> comment "} def exit" in
  self
  |> comment "def return {"
  |> label "return"
  |> load_tos 0
  |> rot
  |> pop
  |> rot
  |> ret
  |> comment "} def return".

Definition to_program (self : t) : Program := instrs self.
End Unit.

(** ** The lexical scope resolver *)

Module Namespace.
Record t : Type := mk {
  stack : list (gmap string Z);
  _max_depth : Z
}.

(** [Namespace()] *)
Definition new : t := mk [] 0.

(** The search of [get], on the frames from the innermost outwards. *)
Fixpoint get_from (name : string) (frames : list (gmap string Z))
  : result Z :=
  match frames with
  | [] => Raise (unknown_identifier name)
  | ns :: outer =>
      match ns !! name with
      | Some slot => Ok slot
      | None => get_from name outer
      end
  end.

(** The innermost frame is the last element of [stack]. *)
Definition get (name : string) (self : t) : result Z :=
  get_from name (reverse (stack self)).

Definition depth (self : t) : Z :=
  foldr (λ ns acc, Z.of_nat (size ns) + acc) 0 (stack self).

(** The body of the loop of [add]. *)
Definition add_name (name : string) (self : t) : result t :=
  match last (stack self) with
  | None => Raise IndexError
  | Some top =>
      if bool_decide (is_Some (top !! name)) then Raise AssertionError
      else
        let depth := depth self in
        Ok (mk (removelast (stack self) ++ [<[name := depth + 1]> top])
               (Z.max (_max_depth self) depth))
  end.

Fixpoint add_names (names : list string) (self : t) : result t :=
  match names with
  | [] => Ok self
  | name :: rest =>
      match add_name name self with
      | Ok self' => add_names rest self'
      | Raise e => Raise e
      end
  end.

(** [add] declares two required parameters, [names] and [stack_size].
    Python binds the arguments before it runs the body, so a call that
    leaves [stack_size] out ([None] here) raises [TypeError] at once. *)
Definition add (names : list string) (stack_size : option Z) (self : t)
  : result t :=
  match stack_size with
  | None => Raise TypeError
  | Some _ => add_names names self
  end.

Definition push (self : t) : t :=
  mk (stack self ++ [∅]) (_max_depth self).

(** [list.pop] raises [IndexError] on an empty list. *)
Definition pop (self : t) : result t :=
  match stack self with
  | [] => Raise IndexError
  | _ => Ok (mk (removelast (stack self)) (_max_depth self))
  end.
End Namespace.

(** ** The syntax tree *)

(** Modelled from the spec: the module [common] (the node classes) is not
    part of the source.  The types below are the structurally valid trees:
    each node has the fields the generator reads, and a wrapper node
    ([Stmt], [Expr], [Lit]) is identified with the kind of its [child]. *)
Record Int : Type := mkInt { value : Z }.

Inductive Lit : Type :=
  | Lit_Int (child : Int).

Record Var : Type := mkVar { var_name : string }.

#[local] Unset Elimination Schemes.

Inductive Expr : Type :=
  | Expr_Lit (child : Lit)
  | Expr_Var (child : Var)
  | Expr_FnCall (name : string) (args : list Expr).

Record VarDecl : Type := mkVarDecl { var_decl_name : string }.

Record Assign : Type := mkAssign { assign_name : string; assign_expr : Expr }.

Inductive Stmt : Type :=
  | Stmt_Block (children : list Stmt)
  | Stmt_Expr (child : Expr)
  | Stmt_FnDef (name : string) (arg_names : list string) (stmt : Stmt)
  | Stmt_WhileLoop (guard : Expr) (body : Stmt)
  | Stmt_VarDecl (child : VarDecl)
  | Stmt_Assign (child : Assign).

#[local] Set Elimination Schemes.

(** The classes a statement's child can belong to, for [isinstance]. *)
Inductive NodeClass : Type :=
  | Block | ExprC | FnDef | WhileLoop | VarDeclC | AssignC.

#[global] Instance NodeClass_eq_dec : EqDecision NodeClass.
Proof. unfold EqDecision, Decision. decide equality. Defined.

Definition class_of (stmt : Stmt) : NodeClass :=
  match stmt with
  | Stmt_Block _ => Block
  | Stmt_Expr _ => ExprC
  | Stmt_FnDef _ _ _ => FnDef
  | Stmt_WhileLoop _ _ => WhileLoop
  | Stmt_VarDecl _ => VarDeclC
  | Stmt_Assign _ => AssignC
  end.

(** The second argument of [isinstance]: a class, a tuple of classes, or (as
    [_stack_size_block] writes it) a list of classes. *)
Inductive classinfo : Type :=
  | a_class (c : NodeClass)
  | a_tuple (cs : list NodeClass)
  | a_list (cs : list NodeClass).

(** [isinstance] accepts a class or a tuple of classes; for a list it raises
    [TypeError], whatever the object is. *)
Definition isinstance (stmt : Stmt) (info : classinfo) : result bool :=
  match info with
  | a_class c => Ok (bool_decide (class_of stmt = c))
  | a_tuple cs => Ok (bool_decide (class_of stmt ∈ cs))
  | a_list _ => Raise TypeError
  end.

(** ** The generators *)

(** The generators share the scope resolver [ns], which they mutate, and the
    class-wide label counter of [Unit]; both are threaded as a state.  An
    exception ends the generation, so no state comes back with it. *)
Record GenState : Type := mkGenState {
  ns : Namespace.t;
  _next_label_id : Z
}.

Definition M (A : Type) : Type := GenState → result (A * GenState).

Definition gen_ret {A} (a : A) : M A := λ s, Ok (a, s).

Definition gen_bind {A B} (m : M A) (k : A → M B) : M B :=
  λ s, match m s with
       | Ok (a, s') => k a s'
       | Raise e => Raise e
       end.

Notation "'let*' x ':=' m 'in' k" := (gen_bind m (λ x, k))
  (at level 10, x name, m at level 100, k at level 200, only parsing).
Notation "m ';;' k" := (gen_bind m (λ _, k))
  (at level 100, k at level 200, right associativity, only parsing).

(** A fallible computation that does not touch the state. *)
Definition gen_lift {A} (r : result A) : M A :=
  λ s, match r with
       | Ok a => Ok (a, s)
       | Raise e => Raise e
       end.

(** [ns.push()], [ns.pop()], [ns.add(names)], [ns.get(name)] *)
Definition ns_push : M unit :=
  λ s, Ok (tt, mkGenState (Namespace.push (ns s)) (_next_label_id s)).

Definition ns_pop : M unit :=
  λ s, match Namespace.pop (ns s) with
       | Ok ns' => Ok (tt, mkGenState ns' (_next_label_id s))
       | Raise e => Raise e
       end.

Definition ns_add (names : list string) (stack_size : option Z) : M unit :=
  λ s, match Namespace.add names stack_size (ns s) with
       | Ok ns' => Ok (tt, mkGenState ns' (_next_label_id s))
       | Raise e => Raise e
       end.

Definition ns_get (name : string) : M Z :=
  λ s, match Namespace.get name (ns s) with
       | Ok slot => Ok (slot, s)
       | Raise e => Raise e
       end.

(** [Unit.new_label()] *)
Definition new_label : M string :=
  λ s, let '(name, id) := Unit.new_label (_next_label_id s) in
       Ok (name, mkGenState (ns s) id).

(** A list comprehension whose element expression runs a generator. *)
Section comprehension.
Context {A B : Type} (f : A → M B).

Fixpoint gen_each (l : list A) : M (list B) :=
  match l with
  | [] => gen_ret []
  | x :: l' =>
      let* y := f x in
      let* ys := gen_each l' in
      gen_ret (y :: ys)
  end.
End comprehension.

(** [reduce(Unit.insert, units, init)] *)
Definition reduce_insert (units : list Unit.t) (init : Unit.t) : Unit.t :=
  foldl (λ acc unit, acc |> Unit.insert unit) init units.

(** *** The frame size analyzer *)

Section stack_size_cases.
(** [stack_size] itself, for the calls the cases make on their children. *)
Variable stack_size : Stmt → result Z.

(** The loop of [_stack_size_block], with its two accumulators. *)
Fixpoint _stack_size_block_loop (children : list Stmt)
    (static biggest_block : Z) : result Z :=
  match children with
  | [] => Ok (static + biggest_block)
  | stmt :: rest =>
      match isinstance stmt (a_list [Block; WhileLoop]) with
      | Raise e => Raise e
      | Ok true =>
          match stack_size stmt with
          | Raise e => Raise e
          | Ok block_size =>
              if decide (block_size > biggest_block)
              then _stack_size_block_loop rest static block_size
              else _stack_size_block_loop rest static biggest_block
          end
      | Ok false =>
          match stack_size stmt with
          | Raise e => Raise e
          | Ok n => _stack_size_block_loop rest (static + n) biggest_block
          end
      end
  end.

Definition _stack_size_block (children : list Stmt) : result Z :=
  _stack_size_block_loop children 0 0.

Definition _stack_size_fn_def (arg_names : list string) (stmt : Stmt)
  : result Z :=
  match stack_size stmt with
  | Raise e => Raise e
  | Ok n => Ok (Z.of_nat (length arg_names) + n)
  end.

Definition _stack_size_expr (node : Expr) : result Z := Ok 0.

Definition _stack_size_while_loop (guard : Expr) (body : Stmt) : result Z :=
  match _stack_size_expr guard with
  | Raise e => Raise e
  | Ok g =>
      match stack_size body with
      | Raise e => Raise e
      | Ok b => Ok (g + b)
      end
  end.
End stack_size_cases.

(** [stack_size] on a statement: [_stack_size_stmt] passes to the case of the
    child's class. *)
Fixpoint stack_size (node : Stmt) : result Z :=
  match node with
  | Stmt_Block children => _stack_size_block stack_size children
  | Stmt_Expr child => _stack_size_expr child
  | Stmt_FnDef _ arg_names stmt => _stack_size_fn_def stack_size arg_names stmt
  | Stmt_WhileLoop guard body => _stack_size_while_loop stack_size guard body
  | Stmt_VarDecl _ => Ok 1
  | Stmt_Assign _ => Ok 0
  end.

(** *** Expressions *)

Definition gen_int (int_ : Int) : M Unit.t :=
  gen_ret (Unit.new
           |> Unit.push (value int_)
           |> Unit.inline_comment ("int " +:+ pretty (value int_))).

Definition gen_lit (lit : Lit) : M Unit.t :=
  match lit with
  | Lit_Int child => gen_int child
  end.

Definition gen_var (var : Var) : M Unit.t :=
  let* slot := ns_get (var_name var) in
  gen_ret (Unit.new
           |> Unit.load_tos slot
           |> Unit.inline_comment (var_name var)).

Section gen_expr_cases.
Variable gen_expr : Expr → M Unit.t.

Definition gen_fn_call (name : string) (args : list Expr) : M Unit.t :=
  ns_push ;;
  let* args_raw := gen_each gen_expr args in
  ns_pop ;;
  let args_pushed :=
    imap (λ i arg, Unit.new
                   |> Unit.insert arg
                   |> Unit.store_tos (Z.of_nat i))
         args_raw in
  let args :=
    reduce_insert args_pushed
      (Unit.new |> Unit.comment ("call " +:+ name +:+ " {")) in
  gen_ret (args
           |> Unit.call name
           |> Unit.inline_comment name
           |> Unit.comment ("} call " +:+ name)).
End gen_expr_cases.

Fixpoint gen_expr (expr : Expr) : M Unit.t :=
  match expr with
  | Expr_Lit child => gen_lit child
  | Expr_Var child => gen_var child
  | Expr_FnCall name args => gen_fn_call gen_expr name args
  end.

(** *** Statements *)

Definition gen_var_decl (var_decl : VarDecl) : M Unit.t :=
  ns_pop ;;
  ns_add [var_decl_name var_decl] None ;;
  ns_push ;;
  gen_ret Unit.new.

Definition gen_assign (assign : Assign) : M Unit.t :=
  ns_push ;;
  let* expr := gen_expr (assign_expr assign) in
  ns_pop ;;
  let* slot := ns_get (assign_name assign) in
  gen_ret (Unit.new
           |> Unit.insert expr
           |> Unit.store_tos slot
           |> Unit.inline_comment (assign_name assign)).

Section gen_stmt_cases.
Variable gen_stmt : Stmt → M Unit.t.

Definition gen_block (children : list Stmt) : M Unit.t :=
  ns_push ;;
  let* units := gen_each gen_stmt children in
  ns_pop ;;
  gen_ret (reduce_insert units Unit.new).

Definition gen_fn_def (name : string) (arg_names : list string)
    (stmt : Stmt) : M Unit.t :=
  ns_push ;;
  ns_add arg_names None ;;
  let* body := gen_stmt stmt in
  ns_pop ;;
  let* size := gen_lift (_stack_size_fn_def stack_size arg_names stmt) in
  let opened :=
    Unit.new
    |> Unit.comment ("def " +:+ name +:+ " {")
    |> Unit.label name
    |> Unit.incr_tos size
    |> Unit.insert body in
  let* size' := gen_lift (_stack_size_fn_def stack_size arg_names stmt) in
  let* closed := gen_lift (opened |> Unit.decr_tos size') in
  gen_ret (closed
           |> Unit.rot
           |> Unit.ret
           |> Unit.comment ("} def " +:+ name)).

Definition gen_while_loop (guard_expr : Expr) (body_stmt : Stmt)
  : M Unit.t :=
  ns_push ;;
  let* guard := gen_expr guard_expr in
  ns_pop ;;
  ns_push ;;
  let* body := gen_stmt body_stmt in
  ns_pop ;;
  let* start_label := new_label in
  let* guard_label := new_label in
  let* end_label := new_label in
  gen_ret (Unit.new
           |> Unit.comment "while loop {"
           |> Unit.jmp guard_label
           |> Unit.label start_label
           |> Unit.comment "while body {"
           |> Unit.insert body
           |> Unit.comment "} while body"
           |> Unit.comment "while guard {"
           |> Unit.label guard_label
           |> Unit.insert guard
           |> Unit.jmp_t start_label
           |> Unit.comment "} while guard"
           |> Unit.label end_label
           |> Unit.comment "} while loop").
End gen_stmt_cases.

(** Every branch of [gen_stmt] returns, so the [ns.pop()] written after the
    branches is never reached: the function ends with the frame it pushed
    still on the stack. *)
Fixpoint gen_stmt (stmt : Stmt) : M Unit.t :=
  ns_push ;;
  match stmt with
  | Stmt_Block children => gen_block gen_stmt children
  | Stmt_Expr child =>
      let* u := gen_expr child in
      gen_ret (u |> Unit.pop)
  | Stmt_FnDef name arg_names stmt => gen_fn_def gen_stmt name arg_names stmt
  | Stmt_WhileLoop guard body => gen_while_loop gen_stmt guard body
  | Stmt_VarDecl child => gen_var_decl child
  | Stmt_Assign child => gen_assign child
  end.

(** The unit [gen] hands to [link]. *)
Definition assemble (body : Unit.t) : Unit.t :=
  Unit.fresh
  |> Unit.insert body
  |> Unit.halt
  |> Unit.intrinsics.

(** [gen], from the value [_next_label_id] of the label counter. *)
Definition gen (stmt : Stmt) (_next_label_id : Z) : result Unit.t :=
  let ns := Namespace.new in
  match gen_stmt stmt (mkGenState ns _next_label_id) with
  | Raise e => Raise e
  | Ok (body, _) => assemble body |> Unit.link
  end.

(** ** Induction on the syntax tree *)

Section Expr_induction.
Variable P : Expr → Prop.
Hypothesis H_lit : ∀ child, P (Expr_Lit child).
Hypothesis H_var : ∀ child, P (Expr_Var child).
Hypothesis H_call : ∀ name args, Forall P args → P (Expr_FnCall name args).

Fixpoint Expr_ind (e : Expr) : P e :=
  match e with
  | Expr_Lit child => H_lit child
  | Expr_Var child => H_var child
  | Expr_FnCall name args =>
      H_call name args
        ((fix all (l : list Expr) : Forall P l :=
            match l with
            | [] => @List.Forall_nil _ P
            | x :: l' => @List.Forall_cons _ P x l' (Expr_ind x) (all l')
            end) args)
  end.
End Expr_induction.

Section Stmt_induction.
Variable P : Stmt → Prop.
Hypothesis H_block : ∀ children, Forall P children → P (Stmt_Block children).
Hypothesis H_expr : ∀ child, P (Stmt_Expr child).
Hypothesis H_fn_def :
  ∀ name arg_names stmt, P stmt → P (Stmt_FnDef name arg_names stmt).
Hypothesis H_while : ∀ guard body, P body → P (Stmt_WhileLoop guard body).
Hypothesis H_var_decl : ∀ child, P (Stmt_VarDecl child).
Hypothesis H_assign : ∀ child, P (Stmt_Assign child).

Fixpoint Stmt_ind (s : Stmt) : P s :=
  match s with
  | Stmt_Block children =>
      H_block children
        ((fix all (l : list Stmt) : Forall P l :=
            match l with
            | [] => @List.Forall_nil _ P
            | x :: l' => @List.Forall_cons _ P x l' (Stmt_ind x) (all l')
            end) children)
  | Stmt_Expr child => H_expr child
  | Stmt_FnDef name arg_names stmt =>
      H_fn_def name arg_names stmt (Stmt_ind stmt)
  | Stmt_WhileLoop guard body => H_while guard body (Stmt_ind body)
  | Stmt_VarDecl child => H_var_decl child
  | Stmt_Assign child => H_assign child
  end.
End Stmt_induction.

(** * The vocabulary of the properties *)

(** The sequence that rewrites the TOS pointer by [d] with [op]. *)
Definition tos_update (op : InstrKind.t) (d : Z) : Program :=
  [ mkInstr InstrKind.Push (Some _TOS_ADDR_PTR);
    mkInstr InstrKind.Load None;
    mkInstr InstrKind.Push (Some d);
    mkInstr op None;
    mkInstr InstrKind.Push (Some _TOS_ADDR_PTR);
    mkInstr InstrKind.Store None ].

(** [addr] is the index of a Jmp, JmpF, JmpT or Call instruction of [p]
    whose operand is still the sentinel. *)
Definition deferred_at (p : Program) (addr : Z) : bool :=
  bool_decide (0 ≤ addr)
  && match p !! Z.to_nat addr with
     | Some instr =>
         Unit.is_jump_kind (kind instr)
         && bool_decide (arg instr = Some _DUMMY_ADDR)
     | None => false
     end.

(** The deferred jumps of [u] are in order: [jumps] has no key twice, and
    each key is the index of a deferred jump instruction.  Every unit the
    assembler's operations build has this property until it is linked. *)
Definition jumps_wf (u : Unit.t) : bool :=
  bool_decide (NoDup (Dict.keys (Unit.jumps u)))
  && forallb (deferred_at (Unit.instrs u)) (Dict.keys (Unit.jumps u)).

(** The number of frames on the resolver's stack. *)
Definition depth_of (s : GenState) : nat := length (Namespace.stack (ns s)).

(** The labels of [u] are synthetic labels minted after the counter stood at
    [lo] and up to its standing at [hi]. *)
Definition labels_in_range (lo hi : Z) (u : Unit.t) : Prop :=
  ∀ name, is_Some (Unit.labels u !! name) →
          ∃ k, lo < k ≤ hi ∧ name = "__" +:+ pretty k.

(** The program [link] produces when nothing stops it: every instruction at
    the address of a deferred jump gets the index of its label, less one. *)
Definition resolve (lbls : gmap string Z) (js : Dict.t) (p : Program)
  : Program :=
  imap (λ i instr,
          match Dict.get (Z.of_nat i) js with
          | Some name =>
              match lbls !! name with
              | Some target => mkInstr (kind instr) (Some (target - 1))
              | None => instr
              end
          | None => instr
          end) p.

(** Some deferred jump of [u] names a label that [u] does not declare. *)
Definition unresolved (u : Unit.t) : Prop :=
  ∃ addr name, (addr, name) ∈ Unit.jumps u ∧ Unit.labels u !! name = None.

(** The instruction [p[addr]], with Python's indexing. *)
Definition instr_at (p : Program) (addr : Z) : option Instr :=
  Unit.py_index p addr ≫= λ i, p !! i.

(** The object at index [i] of a unit whose instruction objects are [objs]
    sits at no other index. *)
Definition sole (objs : list nat) (i : nat) : bool :=
  bool_decide (is_Some (objs !! i))
  && forallb (λ j, bool_decide (objs !! j = objs !! i → j = i))
       (seq 0 (length objs)).

(** No instruction object of a deferred jump of [u] sits at a second index
    of [u]: units built by the assembler's operations are of this kind
    unless a unit with a deferred jump was inserted more than once. *)
Definition jumps_unshared (objs : list nat) (u : Unit.t) : bool :=
  forallb (λ addr, sole objs (Z.to_nat addr)) (Dict.keys (Unit.jumps u)).

(** What the specification says of [link] on a unit [u] whose instruction
    objects are [objs]. *)
Definition link_as_specified (objs : list nat) (u : Unit.t) : Prop :=
  ((∃ name, Unit.link_objs objs u = Raise (unknown_label name))
   ↔ unresolved u)
  ∧ (¬ unresolved u →
     ∃ u',
       Unit.link_objs objs u = Ok u'
       ∧ (∀ addr name,
            (addr, name) ∈ Unit.jumps u →
            ∃ instr target,
              instr_at (Unit.instrs u) addr = Some instr
              ∧ Unit.labels u !! name = Some target
              ∧ instr_at (Unit.instrs u') addr
                = Some (mkInstr (kind instr) (Some (target - 1))))
       ∧ (∀ i,
            (∀ addr, addr ∈ Dict.keys (Unit.jumps u) →
                     Unit.py_index (Unit.instrs u) addr ≠ Some i) →
            Unit.instrs u' !! i = Unit.instrs u !! i)).

(** A unit linked once: the jump at 0 has its operand, and [jumps] still
    lists it. *)
Definition linked_once : Unit.t :=
  Unit.mk [mkInstr InstrKind.Jmp (Some (-1))] {["a" := 0]} [(0, "a")] ∅ ∅.

(** [Unit().insert(X).insert(X)] for [X = Unit().label('a').jmp('a')]: the
    one Jmp object of [X] sits at index 0 and at index 1. *)
Definition inserted_twice : Unit.t :=
  let X := Unit.new |> Unit.label "a" |> Unit.jmp "a" in
  Unit.new |> Unit.insert X |> Unit.insert X.

Definition inserted_twice_objs : list nat := [0%nat; 0%nat].

(** Address rebasing: the operands that [link] has put at the addresses of
    the deferred jumps [js] are moved by [off]. *)
Definition rebase (off : Z) (js : Dict.t) (p : Program) : Program :=
  imap (λ i instr,
          if bool_decide (Z.of_nat i ∈ Dict.keys js)
          then mkInstr (kind instr) ((λ a, a + off) <$> arg instr)
          else instr) p.

(** What the specification says of inserting [B] into [A]. *)
Definition insert_as_specified (A B : Unit.t) : Prop :=
  let AB := Unit.insert B A in
  Unit.instrs AB = Unit.instrs A ++ Unit.instrs B
  ∧ (∀ name addr,
       Unit.labels B !! name = Some addr →
       Unit.labels AB !! name = Some (addr + Unit.here A))
  ∧ (∀ addr name,
       (addr, name) ∈ Unit.jumps B →
       (addr + Unit.here A, name) ∈ Unit.jumps AB)
  ∧ (∀ addr,
       is_Some (Unit.comments B !! addr) →
       is_Some (Unit.comments AB !! (addr + Unit.here A)))
  ∧ (∀ addr,
       is_Some (Unit.inline_comments B !! addr) →
       is_Some (Unit.inline_comments AB !! (addr + Unit.here A)))
  ∧ (∀ A' B',
       Unit.link A = Ok A' → Unit.link B = Ok B' →
       ∃ AB',
         Unit.link AB = Ok AB'
         ∧ Unit.instrs AB'
           = Unit.instrs A'
             ++ rebase (Unit.here A) (Unit.jumps B) (Unit.instrs B')).

(** [A] jumps to a label ["x"] of its own, and [B] declares ["x"] too. *)
Definition capture_A : Unit.t := Unit.new |> Unit.label "x" |> Unit.jmp "x".
Definition capture_B : Unit.t := Unit.new |> Unit.label "x" |> Unit.push 1.

(** No deferred jump of [A] names a label that [B] declares. *)
Definition no_capture (A B : Unit.t) : bool :=
  forallb (λ kv, bool_decide (Unit.labels B !! kv.2 = None)) (Unit.jumps A).

(** The layout of the unit [u] of a while-loop generated from the state [s],
    in terms of the units of its guard and of its body (both generated under
    one more frame than [s]): the instructions, the two deferred jumps, the
    three labels, and the operands that [link] gives the two jumps (the
    machine goes on at the operand plus one). *)
Definition while_loop_layout (guard_expr : Expr) (body_stmt : Stmt)
    (s : GenState) (u : Unit.t) : Prop :=
  let inner := mkGenState (Namespace.push (ns s)) (_next_label_id s) in
  ∃ guard body sb',
    gen_expr guard_expr inner = Ok (guard, inner)
    ∧ gen_stmt body_stmt inner = Ok (body, sb')
    ∧ let start_label := "__" +:+ pretty (_next_label_id sb' + 1) in
      let guard_label := "__" +:+ pretty (_next_label_id sb' + 2) in
      let end_label := "__" +:+ pretty (_next_label_id sb' + 3) in
      let nb := Unit.here body in
      let ng := Unit.here guard in
      let linked := resolve (Unit.labels u) (Unit.jumps u) (Unit.instrs u) in
      Unit.instrs u
      = [mkInstr InstrKind.Jmp (Some _DUMMY_ADDR)]
        ++ Unit.instrs body
        ++ Unit.instrs guard
        ++ [mkInstr InstrKind.JmpT (Some _DUMMY_ADDR)]
      ∧ Dict.get 0 (Unit.jumps u) = Some guard_label
      ∧ Dict.get (1 + nb + ng) (Unit.jumps u) = Some start_label
      ∧ Unit.labels u !! start_label = Some 1
      ∧ Unit.labels u !! guard_label = Some (1 + nb)
      ∧ Unit.labels u !! end_label = Some (2 + nb + ng)
      ∧ linked !! 0%nat = Some (mkInstr InstrKind.Jmp (Some nb))
      ∧ linked !! Z.to_nat (1 + nb + ng)
        = Some (mkInstr InstrKind.JmpT (Some 0)).

(** The first five instructions of [fresh]. *)
Definition entry_stub : Program :=
  [ mkInstr InstrKind.Push (Some 8);
    mkInstr InstrKind.Push (Some 0);
    mkInstr InstrKind.Store None;
    mkInstr InstrKind.Call (Some _DUMMY_ADDR);
    mkInstr InstrKind.Halt None ].

(** ** The vocabulary of the further properties *)

(** The units that the assembler's operations build from [Unit()], before
    any [link]: every emitter is [_add_instr] or, for the four jumps,
    [deferred]. *)
Inductive built : Unit.t → Prop :=
  | built_new : built Unit.new
  | built_add_instr k a u : built u → built (Unit._add_instr k a u)
  | built_deferred k name u :
      Unit.is_jump_kind k = true → built u → built (Unit.deferred k name u)
  | built_label name u : built u → built (Unit.label name u)
  | built_comment c u : built u → built (Unit.comment c u)
  | built_inline_comment c u : built u → built (Unit.inline_comment c u)
  | built_insert unit u : built unit → built u → built (Unit.insert unit u).

(** Every label of [u] is an index of [u] or the index after the last. *)
Definition labels_wf (u : Unit.t) : Prop :=
  ∀ name addr, Unit.labels u !! name = Some addr → 0 ≤ addr ≤ Unit.here u.

(** The number of statement nodes of a statement, itself included. *)
Fixpoint stmt_count (stmt : Stmt) : nat :=
  match stmt with
  | Stmt_Block children => S (sum_list_with stmt_count children)
  | Stmt_FnDef _ _ body => S (stmt_count body)
  | Stmt_WhileLoop _ body => S (stmt_count body)
  | Stmt_Expr _ | Stmt_VarDecl _ | Stmt_Assign _ => 1
  end.

(** The number of while-loops of a statement. *)
Fixpoint while_count (stmt : Stmt) : nat :=
  match stmt with
  | Stmt_Block children => sum_list_with while_count children
  | Stmt_FnDef _ _ body => while_count body
  | Stmt_WhileLoop _ body => S (while_count body)
  | Stmt_Expr _ | Stmt_VarDecl _ | Stmt_Assign _ => 0
  end.

(** The state [s] with [n] more empty frames and [w] more while-loops'
    labels minted. *)
Definition leak (n w : nat) (s : GenState) : GenState :=
  mkGenState
    (Namespace.mk (Namespace.stack (ns s) ++ replicate n ∅)
       (Namespace._max_depth (ns s)))
    (_next_label_id s + 3 * Z.of_nat w).

(** [name] is bound in some frame of the resolver. *)
Definition bound_in (n : Namespace.t) (name : string) : bool :=
  match Namespace.get name n with
  | Ok _ => true
  | Raise _ => false
  end.

(** The first error of a sequence, in its order. *)
Section first_error.
Context {A : Type} (err : A → option exn).

Fixpoint first_error (l : list A) : option exn :=
  match l with
  | [] => None
  | x :: l' =>
      match err x with
      | Some e => Some e
      | None => first_error l'
      end
  end.
End first_error.

(** The exception an expression ends in, if any, when the names that
    [bound] accepts are the declared ones: the arguments of a call are
    visited from the left, a variable must be declared, and the name of the
    called function is not looked at. *)
Fixpoint expr_error (bound : string → bool) (e : Expr) : option exn :=
  match e with
  | Expr_Lit _ => None
  | Expr_Var child =>
      if bound (var_name child) then None
      else Some (unknown_identifier (var_name child))
  | Expr_FnCall _ args => first_error (expr_error bound) args
  end.

(** The exception a statement ends in, if any: a declaration and a function
    definition end in [TypeError] at once; an assignment visits its
    expression before it looks its target up; a loop visits its guard, then
    its body; a block visits its children in order. *)
Fixpoint stmt_error (bound : string → bool) (stmt : Stmt) : option exn :=
  match stmt with
  | Stmt_Block children => first_error (stmt_error bound) children
  | Stmt_Expr child => expr_error bound child
  | Stmt_FnDef _ _ _ => Some TypeError
  | Stmt_WhileLoop guard body =>
      match expr_error bound guard with
      | Some e => Some e
      | None => stmt_error bound body
      end
  | Stmt_VarDecl _ => Some TypeError
  | Stmt_Assign child =>
      match expr_error bound (assign_expr child) with
      | Some e => Some e
      | None =>
          if bound (assign_name child) then None
          else Some (unknown_identifier (assign_name child))
      end
  end.

(** The instructions that store the value on top of the stack into the
    frame slot [i]: the address is the frame pointer, less [i] when [i] is
    not zero. *)
Definition store_slot (i : Z) : Program :=
  [mkInstr InstrKind.Push (Some _TOS_ADDR_PTR); mkInstr InstrKind.Load None]
  ++ (if decide (i = 0) then []
      else [mkInstr InstrKind.Push (Some i); mkInstr InstrKind.Sub None])
  ++ [mkInstr InstrKind.Store None].

(** The names of the functions an expression calls, in the order of their
    Call instructions: the arguments' calls come before the call itself. *)
Fixpoint expr_calls (e : Expr) : list string :=
  match e with
  | Expr_Lit _ | Expr_Var _ => []
  | Expr_FnCall name args => concat (expr_calls <$> args) ++ [name]
  end.

(** The names of the functions a statement calls. *)
Fixpoint stmt_calls (stmt : Stmt) : list string :=
  match stmt with
  | Stmt_Block children => concat (stmt_calls <$> children)
  | Stmt_Expr child => expr_calls child
  | Stmt_FnDef _ _ body => stmt_calls body
  | Stmt_WhileLoop guard body => stmt_calls body ++ expr_calls guard
  | Stmt_VarDecl _ => []
  | Stmt_Assign child => expr_calls (assign_expr child)
  end.

(** Every deferred jump of [u] names a label of [u] or a name of [L], and
    the deferred jumps are in order. *)
Definition closed (L : list string) (u : Unit.t) : Prop :=
  jumps_wf u
  ∧ ∀ name, name ∈ (Unit.jumps u).*2 →
            name ∈ L ∨ is_Some (Unit.labels u !! name).

(** The entry points of the intrinsic functions, counted from the first
    instruction that [intrinsics] appends. *)
Definition intrinsic_offsets : gmap string Z :=
  list_to_map [("add", 0); ("sub", 11); ("shl", 22); ("print", 33);
               ("exit", 40); ("return", 45)].

(** * Properties *)

(** ** The instruction sequence of the assembler's operations *)

Lemma instrs_add_instr k a u :
  Unit.instrs (Unit._add_instr k a u) = Unit.instrs u ++ [mkInstr k a].
Proof. reflexivity. Qed.

Lemma instrs_label name u : Unit.instrs (Unit.label name u) = Unit.instrs u.
Proof. reflexivity. Qed.

Lemma instrs_comment c u : Unit.instrs (Unit.comment c u) = Unit.instrs u.
Proof. reflexivity. Qed.

Lemma instrs_inline_comment c u :
  Unit.instrs (Unit.inline_comment c u) = Unit.instrs u.
Proof. reflexivity. Qed.

Lemma instrs_insert unit u :
  Unit.instrs (Unit.insert unit u) = Unit.instrs u ++ Unit.instrs unit.
Proof. reflexivity. Qed.

Lemma instrs_deferred k name u :
  Unit.instrs (Unit.deferred k name u)
  = Unit.instrs u ++ [mkInstr k (Some _DUMMY_ADDR)].
Proof. reflexivity. Qed.

(** Unfolds the instruction emitters down to [_add_instr]. *)
Ltac unfold_emitters :=
  unfold Unit.load_tos, Unit.store_tos, Unit.load_tos_ptr, Unit.store_tos_ptr,
    Unit.call, Unit.jmp, Unit.jmp_f, Unit.jmp_t,
    Unit.noop, Unit.halt, Unit.rot, Unit.dup, Unit.load, Unit.store, Unit.add,
    Unit.sub, Unit.shl, Unit.shr, Unit.and_, Unit.or_, Unit.ret, Unit.st,
    Unit.pop, Unit.print, Unit.push in *.

Lemma instrs_load_tos_ptr_0 u :
  Unit.instrs (Unit.load_tos_ptr 0 u)
  = Unit.instrs u ++ [mkInstr InstrKind.Push (Some 0);
                      mkInstr InstrKind.Load None].
Proof. unfold_emitters. simpl. by rewrite <- app_assoc. Qed.

Lemma instrs_store_tos_ptr u :
  Unit.instrs (Unit.store_tos_ptr u)
  = Unit.instrs u ++ [mkInstr InstrKind.Push (Some 0);
                      mkInstr InstrKind.Store None].
Proof. unfold_emitters. simpl. by rewrite <- app_assoc. Qed.

Lemma incr_tos_zero u : Unit.incr_tos 0 u = u.
Proof. reflexivity. Qed.

Lemma instrs_incr_tos d u :
  d ≠ 0 →
  Unit.instrs (Unit.incr_tos d u)
  = Unit.instrs u ++ tos_update InstrKind.Add d.
Proof.
  intros Hd. unfold Unit.incr_tos. destruct (decide (d = 0)) as [|_]; [done|].
  rewrite instrs_inline_comment, instrs_store_tos_ptr.
  unfold Unit.add, Unit.push. rewrite !instrs_add_instr, instrs_load_tos_ptr_0.
  by rewrite <- !app_assoc.
Qed.

Lemma instrs_decr_tos d u :
  0 ≤ d →
  ∃ u', Unit.decr_tos d u = Ok u'
        ∧ Unit.instrs u' = Unit.instrs u ++ tos_update InstrKind.Sub d.
Proof.
  intros Hd. unfold Unit.decr_tos.
  destruct (decide (d >= 0)) as [_|]; [|lia].
  eexists; split; [done|].
  rewrite instrs_inline_comment, instrs_store_tos_ptr.
  unfold Unit.sub, Unit.push. rewrite !instrs_add_instr, instrs_load_tos_ptr_0.
  by rewrite <- !app_assoc.
Qed.

(** C5 (the code departs from the claim): [decr_tos(0)] is not skipped.  On
    every unit it appends the six instructions Push 0, Load, Push 0, Sub,
    Push 0, Store, whereas [incr_tos(0)] returns the unit as it is. *)
Theorem decr_tos_zero_appends_six (self : Unit.t) :
  ∃ u, Unit.decr_tos 0 self = Ok u
       ∧ Unit.instrs u
         = Unit.instrs self
           ++ [ mkInstr InstrKind.Push (Some 0); mkInstr InstrKind.Load None;
                mkInstr InstrKind.Push (Some 0); mkInstr InstrKind.Sub None;
                mkInstr InstrKind.Push (Some 0); mkInstr InstrKind.Store None ]
       ∧ Unit.instrs u ≠ Unit.instrs self
       ∧ Unit.incr_tos 0 self = self.
Proof.
  destruct (instrs_decr_tos 0 self) as (u & Hu & Hi); [lia|].
  exists u. split_and!; [done|done| |done].
  rewrite Hi. intros Heq. apply (f_equal length) in Heq.
  rewrite length_app in Heq. cbn in Heq. lia.
Qed.

(** ** The scope resolver's lookup *)

Lemma get_from_Ok name frames slot :
  Namespace.get_from name frames = Ok slot
  ↔ ∃ inner ns outer,
      frames = inner ++ ns :: outer
      ∧ ns !! name = Some slot
      ∧ Forall (λ fr : gmap string Z, fr !! name = None) inner.
Proof.
  induction frames as [|fr frames IH]; cbn.
  - split; [done|]. intros (inner & ns & outer & Heq & _).
    by destruct inner.
  - destruct (fr !! name) as [v|] eqn:Hfr.
    + split.
      * intros [= ->]. exists [], fr, frames. by split_and!.
      * intros (inner & ns & outer & Heq & Hns & Hin).
        destruct inner as [|fr' inner]; simplify_eq/=; try congruence.
        apply Forall_cons in Hin as [? _]. congruence.
    + rewrite IH. split.
      * intros (inner & ns & outer & -> & Hns & Hin).
        exists (fr :: inner), ns, outer. split_and!; [done|done|].
        by constructor.
      * intros (inner & ns & outer & Heq & Hns & Hin).
        destruct inner as [|fr' inner]; simplify_eq/=; try congruence.
        apply Forall_cons in Hin as [_ Hin]. by exists inner, ns, outer.
Qed.

Lemma get_from_Raise name frames e :
  Namespace.get_from name frames = Raise e
  ↔ e = unknown_identifier name
    ∧ Forall (λ fr : gmap string Z, fr !! name = None) frames.
Proof.
  induction frames as [|fr frames IH]; cbn.
  - split; [by intros [= <-]|by intros [-> _]].
  - destruct (fr !! name) as [v|] eqn:Hfr.
    + split; [done|]. intros [_ Hall].
      apply Forall_cons in Hall as [? _]. congruence.
    + rewrite IH. split; intros [-> Hall]; split; try done.
      * by constructor.
      * by apply Forall_cons in Hall as [_ ?].
Qed.

(** C9: [get(name)] returns the slot that the innermost frame binding [name]
    gives it (the frames after it in [stack], which are the inner ones, do
    not bind [name]), and it raises the unknown-identifier error for [name],
    and no other exception, exactly when no frame binds [name]. *)
Theorem get_innermost_binding (self : Namespace.t) (name : string) :
  (∀ slot,
     Namespace.get name self = Ok slot
     ↔ ∃ outer ns inner,
         Namespace.stack self = outer ++ ns :: inner
         ∧ ns !! name = Some slot
         ∧ Forall (λ fr : gmap string Z, fr !! name = None) inner)
  ∧ (Namespace.get name self = Raise (unknown_identifier name)
     ↔ Forall (λ fr : gmap string Z, fr !! name = None)
         (Namespace.stack self))
  ∧ (∀ e, Namespace.get name self = Raise e → e = unknown_identifier name).
Proof.
  unfold Namespace.get. split_and!.
  - intros slot. rewrite get_from_Ok. split.
    + intros (inner & ns & outer & Heq & Hns & Hin).
      exists (reverse outer), ns, (reverse inner). split_and!; [|done|].
      * apply (f_equal reverse) in Heq.
        rewrite reverse_involutive in Heq. rewrite Heq.
        by rewrite reverse_app, reverse_cons, <- app_assoc.
      * by apply Forall_reverse.
    + intros (outer & ns & inner & Heq & Hns & Hin).
      exists (reverse inner), ns, (reverse outer). split_and!; [|done|].
      * by rewrite Heq, reverse_app, reverse_cons, <- app_assoc.
      * by apply Forall_reverse.
  - rewrite get_from_Raise, Forall_reverse. split; [by intros [_ ?]|done].
  - intros e. rewrite get_from_Raise. by intros [-> _].
Qed.

(** The nested declarations of the specification's example: with [x] bound
    to slot 1 in the outer frame and to slot 2 in the inner one, [x]
    resolves to 2 inside the inner block and to 1 after it is closed. *)
Example get_shadowing :
  let outer : gmap string Z := {["x" := 1]} in
  let inner : gmap string Z := {["x" := 2]} in
  Namespace.get "x" (Namespace.mk [outer; inner] 0) = Ok 2
  ∧ Namespace.get "x" (Namespace.mk [outer] 0) = Ok 1
  ∧ Namespace.get "y" (Namespace.mk [outer; inner] 0)
    = Raise (GenError "Unknown identifier: y").
Proof. by vm_compute. Qed.

(** ** Exceptions other than [GenError] *)

Lemma gen_stmt_var_decl child s :
  gen_stmt (Stmt_VarDecl child) s = Raise TypeError.
Proof.
  destruct s as [[stack md] c]. cbn.
  unfold gen_bind, ns_push, ns_pop, Namespace.pop, Namespace.push; cbn.
  by destruct stack.
Qed.

Lemma gen_stmt_fn_def name arg_names stmt s :
  gen_stmt (Stmt_FnDef name arg_names stmt) s = Raise TypeError.
Proof. reflexivity. Qed.

Lemma stack_size_nonempty_block stmt rest :
  stack_size (Stmt_Block (stmt :: rest)) = Raise TypeError.
Proof. reflexivity. Qed.

(** C2 (the code departs from the claim): generation raises [TypeError],
    which is neither of the two [GenError]s, on every variable declaration
    and on every function definition ([Namespace.add] is called without its
    [stack_size] argument), and so does the frame size of every block that
    has a child ([isinstance] is given a list of classes). *)
Theorem gen_raises_TypeError :
  (∀ child c, gen (Stmt_VarDecl child) c = Raise TypeError)
  ∧ (∀ name arg_names stmt c,
       gen (Stmt_FnDef name arg_names stmt) c = Raise TypeError)
  ∧ (∀ stmt rest, stack_size (Stmt_Block (stmt :: rest)) = Raise TypeError)
  ∧ (∀ name, TypeError ≠ unknown_identifier name
             ∧ TypeError ≠ unknown_label name).
Proof.
  split_and!.
  - intros child c. unfold gen. by rewrite gen_stmt_var_decl.
  - intros name arg_names stmt c. unfold gen. by rewrite gen_stmt_fn_def.
  - apply stack_size_nonempty_block.
  - done.
Qed.

(** C6 (the code departs from the claim): on a block with at least one child
    the analyzer raises [TypeError] at the first child instead of returning
    the sum and the maximum; only the empty block gets a size, 0.  A
    while-loop gets the guard's 0 plus the body's size whenever the body has
    one. *)
Theorem stack_size_block_raises :
  (∀ stmt rest, stack_size (Stmt_Block (stmt :: rest)) = Raise TypeError)
  ∧ stack_size (Stmt_Block []) = Ok 0
  ∧ stack_size (Stmt_Block [Stmt_VarDecl (mkVarDecl "x")]) = Raise TypeError
  ∧ (∀ guard body,
       stack_size (Stmt_WhileLoop guard body)
       = match stack_size body with
         | Ok b => Ok (0 + b)
         | Raise e => Raise e
         end).
Proof. by split_and!. Qed.

(** C8 (the code departs from the claim): no unit is generated for a function
    definition.  Whatever the name, the parameters, the body and the state,
    [gen_fn_def] raises [TypeError] at [ns.add(fn_def.arg_names)], before
    the body is generated and before the label, the TOS updates, [Rot] and
    [Ret] are emitted. *)
Theorem gen_fn_def_raises_TypeError name arg_names stmt s :
  gen_fn_def gen_stmt name arg_names stmt s = Raise TypeError
  ∧ gen_stmt (Stmt_FnDef name arg_names stmt) s = Raise TypeError.
Proof. done. Qed.

(** ** Insertion-ordered dictionaries *)

Lemma Dict_set_fresh k v d :
  k ∉ Dict.keys d → Dict.set k v d = d ++ [(k, v)].
Proof.
  unfold Dict.keys. induction d as [|[k' v'] d IH]; cbn; [done|].
  intros Hk. apply not_elem_of_cons in Hk as [Hne Hk].
  destruct (decide (k' = k)) as [->|_]; [done|]. by rewrite IH.
Qed.

Lemma Dict_update_fresh d items :
  NoDup (Dict.keys d ++ Dict.keys items) → Dict.update d items = d ++ items.
Proof.
  unfold Dict.update, Dict.keys. revert d.
  induction items as [|[k v] items IH]; intros d Hnd; cbn.
  - by rewrite app_nil_r.
  - cbn in Hnd. rewrite Dict_set_fresh.
    + rewrite IH; [by rewrite <- app_assoc|].
      rewrite fmap_app. cbn. by rewrite <- app_assoc.
    + apply NoDup_app in Hnd as (_ & Hdisj & _). intros Hin.
      apply (Hdisj k Hin). left.
Qed.

#[local] Instance shift_inj (off : Z) : Inj (=) (=) (λ addr : Z, addr + off).
Proof. intros a b Hab. lia. Qed.

Lemma NoDup_shift (off : Z) (l : list Z) :
  NoDup l → NoDup ((λ addr, addr + off) <$> l).
Proof. intros Hnd. by apply (NoDup_fmap_2 (λ addr, addr + off)). Qed.

Lemma Dict_keys_shift (f : Z → Z) (d : Dict.t) :
  Dict.keys (prod_map f id <$> d) = f <$> Dict.keys d.
Proof.
  unfold Dict.keys. rewrite <- !list_fmap_compose.
  by apply list_fmap_ext; intros ? [].
Qed.

Lemma Dict_map_keys_inj (f : Z → Z) `{!Inj (=) (=) f} (d : Dict.t) :
  NoDup (Dict.keys d) → Dict.map_keys f d = prod_map f id <$> d.
Proof.
  intros Hnd. unfold Dict.map_keys. rewrite Dict_update_fresh; [done|].
  cbn. rewrite Dict_keys_shift. by apply NoDup_fmap_2.
Qed.

Lemma Dict_get_elem_of k v d :
  NoDup (Dict.keys d) → (k, v) ∈ d → Dict.get k d = Some v.
Proof.
  unfold Dict.keys. induction d as [|[k' v'] d IH]; cbn; intros Hnd Hin.
  - by apply elem_of_nil in Hin.
  - apply NoDup_cons in Hnd as [Hk' Hnd].
    apply elem_of_cons in Hin as [[= <- <-]|Hin].
    + by rewrite decide_True.
    + rewrite decide_False; [by apply IH|].
      intros ->. apply Hk'. by apply (list_elem_of_fmap_2 fst) in Hin.
Qed.

(** ** Units whose deferred jumps are in order *)

Lemma deferred_at_spec p addr :
  deferred_at p addr
  ↔ 0 ≤ addr
    ∧ ∃ instr, p !! Z.to_nat addr = Some instr
               ∧ Unit.is_jump_kind (kind instr) = true
               ∧ arg instr = Some _DUMMY_ADDR.
Proof.
  unfold deferred_at. rewrite andb_True, bool_decide_spec.
  destruct (p !! Z.to_nat addr) as [instr|].
  - rewrite andb_True, bool_decide_spec, Is_true_true. split.
    + intros (? & ? & ?). split; [done|]. by exists instr.
    + intros (? & ? & [= <-] & ? & ?). done.
  - split; [by intros [_ []]|]. by intros (_ & ? & [=] & _).
Qed.

Lemma jumps_wf_spec u :
  jumps_wf u
  ↔ NoDup (Dict.keys (Unit.jumps u))
    ∧ Forall (λ addr, deferred_at (Unit.instrs u) addr)
        (Dict.keys (Unit.jumps u)).
Proof.
  unfold jumps_wf. by rewrite andb_True, bool_decide_spec, forallb_True.
Qed.

Lemma deferred_at_lt p addr :
  deferred_at p addr → 0 ≤ addr < Z.of_nat (length p).
Proof.
  rewrite deferred_at_spec. intros (? & instr & Hl & _).
  apply lookup_lt_Some in Hl. lia.
Qed.

Lemma deferred_at_app_l p q addr :
  deferred_at p addr → deferred_at (p ++ q) addr.
Proof.
  rewrite !deferred_at_spec. intros (? & instr & Hl & ?).
  split; [done|]. exists instr. split; [|done]. by apply lookup_app_l_Some.
Qed.

Lemma deferred_at_app_r p q addr :
  deferred_at q addr → deferred_at (p ++ q) (addr + Z.of_nat (length p)).
Proof.
  rewrite !deferred_at_spec. intros (? & instr & Hl & ?).
  split; [lia|]. exists instr. split; [|done].
  replace (Z.to_nat (addr + Z.of_nat (length p)))
    with (length p + Z.to_nat addr)%nat by lia.
  by rewrite lookup_app_r, Nat.add_comm, Nat.add_sub by lia.
Qed.

Lemma jumps_wf_new : jumps_wf Unit.new.
Proof. done. Qed.

Lemma jumps_wf_same u u' :
  Unit.jumps u' = Unit.jumps u →
  (∃ q, Unit.instrs u' = Unit.instrs u ++ q) →
  jumps_wf u → jumps_wf u'.
Proof.
  rewrite !jumps_wf_spec. intros -> [q ->] [Hnd Hall]. split; [done|].
  eapply Forall_impl; [done|]. intros addr. apply deferred_at_app_l.
Qed.

Lemma jumps_wf_add_instr k a u : jumps_wf u → jumps_wf (Unit._add_instr k a u).
Proof. apply jumps_wf_same; [done|by eexists]. Qed.

Lemma jumps_wf_label name u : jumps_wf u → jumps_wf (Unit.label name u).
Proof. apply jumps_wf_same; [done|]. exists []. by rewrite app_nil_r. Qed.

Lemma jumps_wf_comment c u : jumps_wf u → jumps_wf (Unit.comment c u).
Proof. apply jumps_wf_same; [done|]. exists []. by rewrite app_nil_r. Qed.

Lemma jumps_wf_inline_comment c u :
  jumps_wf u → jumps_wf (Unit.inline_comment c u).
Proof. apply jumps_wf_same; [done|]. exists []. by rewrite app_nil_r. Qed.

Lemma jumps_deferred k name u :
  jumps_wf u →
  Unit.jumps (Unit.deferred k name u)
  = Unit.jumps u ++ [(Unit.here u, name)].
Proof.
  rewrite jumps_wf_spec. intros [_ Hall]. cbn. apply Dict_set_fresh.
  intros Hin. rewrite Forall_forall in Hall.
  apply Hall, deferred_at_lt in Hin. unfold Unit.here in Hin. lia.
Qed.

Lemma jumps_wf_deferred k name u :
  Unit.is_jump_kind k = true → jumps_wf u → jumps_wf (Unit.deferred k name u).
Proof.
  intros Hk Hwf. pose proof (jumps_deferred k name u Hwf) as Hj.
  apply jumps_wf_spec in Hwf as [Hnd Hall].
  apply jumps_wf_spec. rewrite Hj, instrs_deferred.
  unfold Dict.keys in *. rewrite fmap_app. cbn. split.
  - apply NoDup_app. split_and!; [done| |apply NoDup_singleton].
    intros addr Hin ->%list_elem_of_singleton.
    rewrite Forall_forall in Hall. apply Hall, deferred_at_lt in Hin.
    unfold Unit.here in Hin. lia.
  - apply Forall_app. split.
    + eapply Forall_impl; [done|]. intros addr. apply deferred_at_app_l.
    + apply Forall_singleton, deferred_at_spec. unfold Unit.here.
      split; [lia|]. exists (mkInstr k (Some _DUMMY_ADDR)).
      rewrite Nat2Z.id. split; [|done].
      by rewrite lookup_app_r, Nat.sub_diag by lia.
Qed.

Lemma jumps_insert unit self :
  jumps_wf unit → jumps_wf self →
  Unit.jumps (Unit.insert unit self)
  = Unit.jumps self
    ++ (prod_map (λ addr, addr + Unit.here self) id <$> Unit.jumps unit).
Proof.
  rewrite !jumps_wf_spec. intros [Hnd_u Hall_u] [Hnd_s Hall_s]. cbn.
  rewrite (Dict_map_keys_inj (λ addr, addr + Unit.here self)) by done.
  apply Dict_update_fresh. rewrite Dict_keys_shift.
  apply NoDup_app. split_and!; [done| |by apply NoDup_shift].
  intros addr Hin (addr' & -> & Hin')%list_elem_of_fmap.
  rewrite Forall_forall in Hall_u, Hall_s.
  apply Hall_s, deferred_at_lt in Hin. apply Hall_u, deferred_at_lt in Hin'.
  unfold Unit.here in Hin. lia.
Qed.

Lemma jumps_wf_insert unit self :
  jumps_wf unit → jumps_wf self → jumps_wf (Unit.insert unit self).
Proof.
  intros Hu Hs. pose proof (jumps_insert unit self Hu Hs) as Hj.
  apply jumps_wf_spec in Hu as [Hnd_u Hall_u].
  apply jumps_wf_spec in Hs as [Hnd_s Hall_s].
  apply jumps_wf_spec. rewrite Hj, instrs_insert.
  unfold Dict.keys at 1 2. rewrite fmap_app.
  fold (Dict.keys (Unit.jumps self)).
  fold (Dict.keys (prod_map (λ addr, addr + Unit.here self) id
                     <$> Unit.jumps unit)).
  rewrite Dict_keys_shift. split.
  - apply NoDup_app. split_and!; [done| |by apply NoDup_shift].
    intros addr Hin (addr' & -> & Hin')%list_elem_of_fmap.
    rewrite Forall_forall in Hall_u, Hall_s.
    apply Hall_s, deferred_at_lt in Hin. apply Hall_u, deferred_at_lt in Hin'.
    unfold Unit.here in Hin. lia.
  - apply Forall_app. split.
    + eapply Forall_impl; [done|]. intros addr. apply deferred_at_app_l.
    + apply Forall_fmap. eapply Forall_impl; [done|].
      intros addr Hd. cbn. by apply deferred_at_app_r.
Qed.

(** ** Reasoning about the generators *)

Lemma gen_bind_Ok {A B} (m : M A) (k : A → M B) s r :
  gen_bind m k s = Ok r → ∃ a s1, m s = Ok (a, s1) ∧ k a s1 = Ok r.
Proof. unfold gen_bind. destruct (m s) as [[a s1]|e]; [eauto|done]. Qed.

Lemma gen_ret_Ok {A} (a : A) s r : gen_ret a s = Ok r → r = (a, s).
Proof. by intros [= <-]. Qed.

Lemma ns_push_Ok s r :
  ns_push s = Ok r →
  r = (tt, mkGenState (Namespace.push (ns s)) (_next_label_id s)).
Proof. by intros [= <-]. Qed.

Lemma ns_pop_push n c :
  ns_pop (mkGenState (Namespace.push n) c) = Ok (tt, mkGenState n c).
Proof.
  destruct n as [stack md]. unfold ns_pop, Namespace.pop; cbn.
  rewrite removelast_last. by destruct stack.
Qed.

Lemma length_stack_push n :
  length (Namespace.stack (Namespace.push n)) = S (length (Namespace.stack n)).
Proof. cbn. rewrite length_app. cbn. lia. Qed.

Lemma length_removelast {A} (l : list A) :
  l ≠ [] → S (length (removelast l)) = length l.
Proof.
  intros Hl. destruct l as [|x l']; [done|].
  rewrite (app_removelast_last x Hl) at 2.
  rewrite length_app. cbn. lia.
Qed.

Lemma ns_pop_Ok s r :
  ns_pop s = Ok r →
  ∃ s', r = (tt, s')
        ∧ _next_label_id s' = _next_label_id s
        ∧ S (depth_of s') = depth_of s.
Proof.
  destruct s as [[stack md] c]. unfold ns_pop, Namespace.pop, depth_of; cbn.
  destruct stack as [|fr rest]; [done|].
  intros [= <-]. eexists. split; [done|]. split; [done|].
  by apply (length_removelast (fr :: rest)).
Qed.

Lemma ns_get_Ok name s r : ns_get name s = Ok r → ∃ slot, r = (slot, s).
Proof.
  unfold ns_get. destruct (Namespace.get name (ns s)); [|done].
  intros [= <-]. by eexists.
Qed.

Lemma new_label_Ok s r :
  new_label s = Ok r →
  r = ("__" +:+ pretty (_next_label_id s + 1),
       mkGenState (ns s) (_next_label_id s + 1)).
Proof. by intros [= <-]. Qed.

(** Peels the binds of a successful run, one generator at a time. *)
Ltac gen_step H :=
  let a := fresh "a" in
  let s := fresh "s" in
  let Hm := fresh "Hm" in
  apply gen_bind_Ok in H as (a & s & Hm & H).

(** A property of the state transitions and results of a comprehension, from
    the same property of its element generator. *)
Lemma gen_each_invariant {A B} (f : A → M B)
    (R : GenState → GenState → Prop) (Q : GenState → GenState → B → Prop)
    (l : list A) :
  (∀ s, R s s) →
  (∀ s1 s2 s3, R s1 s2 → R s2 s3 → R s1 s3) →
  (∀ s0 s1 s2 s3 y, R s0 s1 → Q s1 s2 y → R s2 s3 → Q s0 s3 y) →
  Forall (λ x, ∀ s y s', f x s = Ok (y, s') → R s s' ∧ Q s s' y) l →
  ∀ s ys s', gen_each f l s = Ok (ys, s') → R s s' ∧ Forall (Q s s') ys.
Proof.
  intros Hrefl Htrans Hweak Hall.
  induction Hall as [|x l Hx _ IH]; intros s ys s' Hrun; cbn in Hrun.
  - apply gen_ret_Ok in Hrun as [= -> ->]. by split.
  - gen_step Hrun. gen_step Hrun. apply gen_ret_Ok in Hrun as [= -> ->].
    apply Hx in Hm as [HR HQ]. apply IH in Hm0 as [HR' HQ'].
    split; [by eapply Htrans|]. constructor.
    + eapply Hweak; [apply Hrefl|done|done].
    + eapply Forall_impl; [done|]. intros y Hy.
      eapply Hweak; [done|done|apply Hrefl].
Qed.

(** ** Labels and deferred jumps of the compound operations *)

Lemma labels_insert_is_Some unit self name :
  is_Some (Unit.labels (Unit.insert unit self) !! name)
  ↔ is_Some (Unit.labels unit !! name) ∨ is_Some (Unit.labels self !! name).
Proof.
  cbn. by rewrite lookup_union_is_Some, lookup_fmap, fmap_is_Some.
Qed.

Lemma labels_add_instr k a u :
  Unit.labels (Unit._add_instr k a u) = Unit.labels u.
Proof. reflexivity. Qed.

Lemma labels_comment c u : Unit.labels (Unit.comment c u) = Unit.labels u.
Proof. reflexivity. Qed.

Lemma labels_inline_comment c u :
  Unit.labels (Unit.inline_comment c u) = Unit.labels u.
Proof. reflexivity. Qed.

Lemma labels_deferred k name u :
  Unit.labels (Unit.deferred k name u) = Unit.labels u.
Proof. reflexivity. Qed.

Lemma labels_load_tos offset u :
  Unit.labels (Unit.load_tos offset u) = Unit.labels u.
Proof.
  unfold Unit.load_tos, Unit.load_tos_ptr. by destruct (decide (offset = 0)).
Qed.

Lemma labels_store_tos offset u :
  Unit.labels (Unit.store_tos offset u) = Unit.labels u.
Proof.
  unfold Unit.store_tos, Unit.load_tos_ptr. by destruct (decide (offset = 0)).
Qed.

Create HintDb unit_wf.

#[local] Hint Resolve jumps_wf_new jumps_wf_add_instr jumps_wf_label
  jumps_wf_comment jumps_wf_inline_comment jumps_wf_insert : unit_wf.

Lemma jumps_wf_load_tos offset u :
  jumps_wf u → jumps_wf (Unit.load_tos offset u).
Proof.
  intros Hu. unfold Unit.load_tos, Unit.load_tos_ptr.
  destruct (decide (offset = 0)); unfold_emitters; eauto 10 with unit_wf.
Qed.

Lemma jumps_wf_store_tos offset u :
  jumps_wf u → jumps_wf (Unit.store_tos offset u).
Proof.
  intros Hu. unfold Unit.store_tos, Unit.load_tos_ptr.
  destruct (decide (offset = 0)); unfold_emitters; eauto 10 with unit_wf.
Qed.

Lemma jumps_wf_call name u : jumps_wf u → jumps_wf (Unit.call name u).
Proof. by apply jumps_wf_deferred. Qed.

Lemma jumps_wf_jmp name u : jumps_wf u → jumps_wf (Unit.jmp name u).
Proof. by apply jumps_wf_deferred. Qed.

Lemma jumps_wf_jmp_t name u : jumps_wf u → jumps_wf (Unit.jmp_t name u).
Proof. by apply jumps_wf_deferred. Qed.

Lemma jumps_wf_pop u : jumps_wf u → jumps_wf (Unit.pop u).
Proof. apply jumps_wf_add_instr. Qed.

#[local] Hint Resolve jumps_wf_load_tos jumps_wf_store_tos jumps_wf_call
  jumps_wf_jmp jumps_wf_jmp_t jumps_wf_pop : unit_wf.

Lemma jumps_wf_reduce_insert units init :
  Forall (λ u, jumps_wf u) units → jumps_wf init →
  jumps_wf (reduce_insert units init).
Proof.
  unfold reduce_insert. intros Hall. revert init.
  induction Hall as [|u units Hu _ IH]; intros init Hinit; cbn; [done|].
  apply IH. by apply jumps_wf_insert.
Qed.

Lemma labels_reduce_insert_is_Some units init name :
  is_Some (Unit.labels (reduce_insert units init) !! name) →
  is_Some (Unit.labels init !! name)
  ∨ ∃ u, u ∈ units ∧ is_Some (Unit.labels u !! name).
Proof.
  unfold reduce_insert. revert init.
  induction units as [|u units IH]; intros init; cbn; [by left|].
  intros [Hin|(u' & Hu' & Hin)]%IH.
  - apply labels_insert_is_Some in Hin as [Hin|Hin]; [right|by left].
    exists u. split; [left|done].
  - right. exists u'. split; [by right|done].
Qed.

(** ** What the expression generators leave behind *)

(** An expression's unit declares no label, its deferred jumps are in order,
    and the expression leaves the resolver and the label counter as it
    found them. *)
Lemma gen_expr_inv e :
  ∀ s u s', gen_expr e s = Ok (u, s') →
            s' = s ∧ Unit.labels u = ∅ ∧ jumps_wf u.
Proof.
  induction e as [[[v]]|[name]|name args IH] using Expr_ind;
    intros s u s' Hrun; cbn in Hrun.
  - apply gen_ret_Ok in Hrun as [= -> ->]. by split_and!.
  - unfold gen_var in Hrun. gen_step Hrun.
    apply ns_get_Ok in Hm as [slot [= -> ->]].
    apply gen_ret_Ok in Hrun as [= -> ->]. split_and!; [done| |].
    + by rewrite labels_inline_comment, labels_load_tos.
    + eauto with unit_wf.
  - unfold gen_fn_call in Hrun. gen_step Hrun. gen_step Hrun.
    apply gen_ret_Ok in Hrun as [= -> ->].
    apply (gen_each_invariant gen_expr (λ s1 s2, s2 = s1)
             (λ _ _ u, Unit.labels u = ∅ ∧ jumps_wf u)) in Hm
      as [-> Hargs];
      [|done|congruence|done|].
    2:{ eapply Forall_impl; [exact IH|]. cbn. intros x Hx sx y sx' Hy.
        by apply Hx in Hy as (-> & ? & ?). }
    rewrite ns_pop_push in Hm0. injection Hm0 as [= <-].
    set (args_pushed := imap _ a).
    assert (Forall (λ u, Unit.labels u = ∅ ∧ jumps_wf u) args_pushed)
      as Hpushed.
    { apply Forall_forall. intros u (i & arg & -> & Hi)%elem_of_lookup_imap.
      rewrite Forall_forall in Hargs.
      destruct (Hargs arg) as [Hl Hwf]; [by eapply list_elem_of_lookup_2|].
      split; [|eauto with unit_wf].
      rewrite labels_store_tos. cbn. rewrite Hl, fmap_empty.
      by rewrite (left_id_L ∅ (∪)). }
    split_and!; [by destruct s| |].
    + apply map_eq. intros name'. rewrite lookup_empty.
      apply eq_None_not_Some. cbn.
      intros [Hin|(u & Hu & Hin)]%labels_reduce_insert_is_Some.
      * cbn in Hin. rewrite lookup_empty in Hin. by destruct Hin.
      * rewrite Forall_forall in Hpushed. destruct (Hpushed u Hu) as [Hl _].
        rewrite Hl, lookup_empty in Hin. by destruct Hin.
    + apply jumps_wf_comment, jumps_wf_inline_comment, jumps_wf_call.
      apply jumps_wf_reduce_insert; [|eauto with unit_wf].
      eapply Forall_impl; [exact Hpushed|]. by intros ? [_ ?].
Qed.

(** ** What the statement generators leave behind *)

Lemma labels_in_range_weaken lo hi lo' hi' u :
  lo' ≤ lo → hi ≤ hi' → labels_in_range lo hi u → labels_in_range lo' hi' u.
Proof.
  intros Hlo Hhi Hu name [k [Hk ->]]%Hu. exists k. split; [lia|done].
Qed.

Lemma labels_in_range_empty lo hi u :
  Unit.labels u = ∅ → labels_in_range lo hi u.
Proof. intros Hu name. rewrite Hu, lookup_empty. by intros []. Qed.

Lemma labels_in_range_same lo hi u u' :
  Unit.labels u' = Unit.labels u →
  labels_in_range lo hi u → labels_in_range lo hi u'.
Proof. unfold labels_in_range. by intros ->. Qed.

Lemma labels_in_range_label lo hi k u :
  lo < k ≤ hi → labels_in_range lo hi u →
  labels_in_range lo hi (Unit.label ("__" +:+ pretty k) u).
Proof.
  intros Hk Hu name. cbn. rewrite lookup_insert_is_Some.
  intros [<-|[_ Hin]]; [by exists k|by apply Hu].
Qed.

Lemma labels_in_range_insert lo hi unit self :
  labels_in_range lo hi unit → labels_in_range lo hi self →
  labels_in_range lo hi (Unit.insert unit self).
Proof.
  intros Hunit Hself name [Hin|Hin]%labels_insert_is_Some; eauto.
Qed.

Lemma labels_in_range_reduce_insert lo hi units init :
  Forall (labels_in_range lo hi) units → labels_in_range lo hi init →
  labels_in_range lo hi (reduce_insert units init).
Proof.
  intros Hall Hinit name [Hin|(u & Hu & Hin)]%labels_reduce_insert_is_Some.
  - by apply Hinit.
  - rewrite Forall_forall in Hall. by apply (Hall u Hu).
Qed.

(** A statement leaves the resolver with more frames than it found, never
    lowers the label counter, declares only labels minted meanwhile, and
    keeps its deferred jumps in order. *)
Lemma gen_stmt_inv stmt :
  ∀ s u s', gen_stmt stmt s = Ok (u, s') →
            (depth_of s < depth_of s')%nat
            ∧ _next_label_id s ≤ _next_label_id s'
            ∧ labels_in_range (_next_label_id s) (_next_label_id s') u
            ∧ jumps_wf u.
Proof.
  induction stmt as [children IH|child|name arg_names stmt _|guard body IH
                     |child|[name expr]] using Stmt_ind;
    intros s u s' Hrun.
  - cbn in Hrun.
    gen_step Hrun. gen_step Hrun. apply gen_ret_Ok in Hrun as [= -> ->].
    apply (gen_each_invariant gen_stmt
             (λ s1 s2, (depth_of s1 ≤ depth_of s2)%nat
                       ∧ _next_label_id s1 ≤ _next_label_id s2)
             (λ s1 s2 u, labels_in_range (_next_label_id s1)
                           (_next_label_id s2) u ∧ jumps_wf u)) in Hm
      as [[Hd Hc] Hunits].
    + apply ns_pop_Ok in Hm0 as (s2 & [= _ ->] & Hc' & Hd').
      unfold depth_of in *. cbn [ns _next_label_id] in *.
      rewrite !length_stack_push in Hd. rewrite Hc'.
      split_and!; [lia|done| |].
      * apply labels_in_range_reduce_insert; [|by apply labels_in_range_empty].
        eapply Forall_impl; [exact Hunits|]. by intros ? [? _].
      * apply jumps_wf_reduce_insert; [|done].
        eapply Forall_impl; [exact Hunits|]. by intros ? [_ ?].
    + intros ?. split; [done|lia].
    + intros sa sb sc [? ?] [? ?]. split; lia.
    + intros sa sb sc sd y [_ ?] [Hy ?] [_ ?]. split; [|done].
      eapply labels_in_range_weaken; [| |exact Hy]; lia.
    + eapply Forall_impl; [exact IH|]. cbn.
      intros x Hx sx y sx' (? & ? & ? & ?)%Hx. split_and!; [lia|done..].
  - cbn in Hrun. gen_step Hrun.
    apply gen_ret_Ok in Hrun as [= -> ->].
    apply gen_expr_inv in Hm as (-> & Hl & Hwf).
    unfold depth_of. cbn [ns _next_label_id]. rewrite length_stack_push.
    split_and!; [lia|done| |eauto with unit_wf].
    by apply labels_in_range_empty.
  - by rewrite gen_stmt_fn_def in Hrun.
  - cbn in Hrun.
    gen_step Hrun. apply gen_expr_inv in Hm as (-> & Hl & Hwf).
    gen_step Hrun. rewrite ns_pop_push in Hm. simplify_eq.
    gen_step Hrun. apply ns_push_Ok in Hm. simplify_eq.
    gen_step Hrun. apply IH in Hm as (Hd & Hc & Hlb & Hwfb).
    gen_step Hrun. apply ns_pop_Ok in Hm as (s4 & [= _ ->] & Hc' & Hd').
    gen_step Hrun. apply new_label_Ok in Hm as [= -> ->].
    gen_step Hrun. apply new_label_Ok in Hm as [= -> ->].
    gen_step Hrun. apply new_label_Ok in Hm as [= -> ->].
    apply gen_ret_Ok in Hrun as [= -> ->].
    unfold depth_of in *. cbn [_next_label_id ns] in *.
    rewrite !length_stack_push in Hd. rewrite Hc' in *.
    split_and!; [lia|lia| |].
    + eapply labels_in_range_same; [apply labels_comment|].
      apply labels_in_range_label; [lia|].
      eapply labels_in_range_same; [apply labels_comment|].
      eapply labels_in_range_same; [apply labels_deferred|].
      apply labels_in_range_insert; [by apply labels_in_range_empty|].
      apply labels_in_range_label; [lia|].
      eapply labels_in_range_same; [apply labels_comment|].
      eapply labels_in_range_same; [apply labels_comment|].
      apply labels_in_range_insert.
      { eapply labels_in_range_weaken; [| |exact Hlb]; lia. }
      eapply labels_in_range_same; [apply labels_comment|].
      apply labels_in_range_label; [lia|].
      by apply labels_in_range_empty.
    + eauto 20 with unit_wf.
  - by rewrite gen_stmt_var_decl in Hrun.
  - cbn in Hrun.
    gen_step Hrun. apply gen_expr_inv in Hm as (-> & Hl & Hwf).
    gen_step Hrun. rewrite ns_pop_push in Hm. simplify_eq.
    gen_step Hrun. apply ns_get_Ok in Hm as [slot [= -> ->]].
    apply gen_ret_Ok in Hrun as [= -> ->].
    unfold depth_of. cbn [ns _next_label_id]. rewrite length_stack_push.
    split_and!; [lia|done| |eauto with unit_wf].
    apply labels_in_range_empty.
    rewrite labels_inline_comment, labels_store_tos. cbn.
    by rewrite Hl, fmap_empty, (left_id_L ∅ (∪)).
Qed.

(** C3 (the code departs from the claim): a statement never leaves the
    frame-stack depth unchanged.  Whenever [gen_stmt] returns a unit, the
    resolver holds more frames than before the call: the [ns.pop()] that
    would balance the dispatcher's [ns.push()] is behind the returns. *)
Theorem gen_stmt_leaves_frames_pushed stmt s u s' :
  gen_stmt stmt s = Ok (u, s') →
  (length (Namespace.stack (ns s)) < length (Namespace.stack (ns s')))%nat.
Proof. intros Hrun. by apply gen_stmt_inv in Hrun as (? & _). Qed.

Lemma gen_stmt_leaves_frames_pushed_witness :
  let stmt := Stmt_Expr (Expr_Lit (Lit_Int (mkInt 1))) in
  let s := mkGenState Namespace.new (-1) in
  ∃ u s',
    gen_stmt stmt s = Ok (u, s')
    ∧ length (Namespace.stack (ns s)) = 0%nat
    ∧ (length (Namespace.stack (ns s)) < length (Namespace.stack (ns s')))%nat.
Proof.
  eexists _, _. split; [reflexivity|]. split; [reflexivity|].
  eapply (gen_stmt_leaves_frames_pushed
            (Stmt_Expr (Expr_Lit (Lit_Int (mkInt 1))))
            (mkGenState Namespace.new (-1))).
  reflexivity.
Defined.

(** An expression statement on the empty resolver: one frame stays. *)
Example gen_stmt_expr_depth :
  match gen_stmt (Stmt_Expr (Expr_Lit (Lit_Int (mkInt 1))))
          (mkGenState Namespace.new (-1)) with
  | Ok (_, s') => Namespace.stack (ns s') = [∅]
  | Raise _ => False
  end.
Proof. reflexivity. Qed.

(** ** The link pass *)

Lemma Dict_get_None k d : Dict.get k d = None ↔ k ∉ Dict.keys d.
Proof.
  unfold Dict.keys. induction d as [|[k' v'] d IH]; cbn.
  - split; [intros _; apply not_elem_of_nil|done].
  - rewrite not_elem_of_cons. destruct (decide (k' = k)) as [->|Hne].
    + split; [done|]. by intros [? _].
    + rewrite IH. split; [by intros ?; split|by intros [_ ?]].
Qed.

Lemma Dict_get_Some k v d : Dict.get k d = Some v → (k, v) ∈ d.
Proof.
  induction d as [|[k' v'] d IH]; cbn; [done|].
  destruct (decide (k' = k)) as [->|Hne].
  - intros [= ->]. left.
  - intros Hg. right. by apply IH.
Qed.

Lemma Dict_get_app k d1 d2 :
  Dict.get k (d1 ++ d2)
  = match Dict.get k d1 with Some v => Some v | None => Dict.get k d2 end.
Proof.
  induction d1 as [|[k' v'] d1 IH]; cbn; [done|].
  by destruct (decide (k' = k)).
Qed.

Lemma Dict_get_shift off k d :
  Dict.get (k + off) (prod_map (λ addr, addr + off) id <$> d) = Dict.get k d.
Proof.
  induction d as [|[k' v'] d IH]; cbn; [done|].
  destruct (decide (k' + off = k + off)), (decide (k' = k)); try lia; done.
Qed.

Lemma length_resolve lbls js p : length (resolve lbls js p) = length p.
Proof. apply length_imap. Qed.

(** *** Objects that sit at one index *)

Lemma sole_spec objs i :
  sole objs i ↔ is_Some (objs !! i) ∧ ∀ j, objs !! j = objs !! i → j = i.
Proof.
  unfold sole. rewrite andb_True, bool_decide_spec, forallb_True, Forall_forall.
  split; intros [Hsome Hall]; (split; [done|]).
  - intros j Hj. destruct (decide (j < length objs)%nat) as [Hlt|Hge].
    + specialize (Hall j). rewrite bool_decide_spec in Hall.
      apply Hall; [|done]. apply elem_of_seq. lia.
    + rewrite (lookup_ge_None_2 objs j) in Hj by lia.
      rewrite <- Hj in Hsome. by destruct Hsome.
  - intros j _. rewrite bool_decide_spec. apply Hall.
Qed.

Lemma sole_seq n i : (i < n)%nat → sole (seq 0 n) i.
Proof.
  intros Hlt. apply sole_spec.
  assert (seq 0 n !! i = Some i) as -> by by apply lookup_seq.
  split; [done|]. intros j Hj. by apply lookup_seq in Hj as [-> _].
Qed.

(** Writing to an object that sits at one index changes that index only. *)
Lemma set_arg_sole objs i a p instr :
  sole objs i → p !! i = Some instr →
  Unit.set_arg objs i a p = <[i := mkInstr (kind instr) (Some a)]> p.
Proof.
  intros [_ Hsole]%sole_spec Hinstr. unfold Unit.set_arg.
  apply list_eq. intros j. rewrite list_lookup_imap.
  destruct (decide (j = i)) as [->|Hne].
  - rewrite list_lookup_insert_eq by by eapply lookup_lt_Some.
    rewrite Hinstr. cbn. by rewrite bool_decide_true.
  - rewrite list_lookup_insert_ne by done.
    destruct (p !! j) as [instr'|]; [|done]. cbn.
    rewrite bool_decide_false; [done|]. intros Heq. by apply Hne, Hsole.
Qed.

Lemma jumps_unshared_spec objs u :
  jumps_unshared objs u
  ↔ Forall (λ addr, sole objs (Z.to_nat addr)) (Dict.keys (Unit.jumps u)).
Proof. unfold jumps_unshared. by rewrite forallb_True. Qed.

(** A unit that holds no object twice. *)
Lemma jumps_unshared_seq u :
  jumps_wf u → jumps_unshared (seq 0 (length (Unit.instrs u))) u.
Proof.
  intros [_ Hdef]%jumps_wf_spec. apply jumps_unshared_spec.
  eapply Forall_impl; [exact Hdef|]. cbn. intros addr Hlt%deferred_at_lt.
  apply sole_seq. lia.
Qed.

(** *** The loop of [link] *)

Lemma link_step_deferred objs lbls p addr name target :
  deferred_at p addr → sole objs (Z.to_nat addr) →
  lbls !! name = Some target →
  ∃ instr,
    p !! Z.to_nat addr = Some instr
    ∧ Unit.link_step objs lbls p addr name
      = Ok (<[Z.to_nat addr := mkInstr (kind instr) (Some (target - 1))]> p).
Proof.
  intros Hdef Hsole Htarget. pose proof (deferred_at_lt _ _ Hdef) as Hlt.
  apply deferred_at_spec in Hdef as (_ & instr & Hinstr & Hkind & Harg).
  exists instr. split; [done|].
  unfold Unit.link_step, Unit.py_index. rewrite Htarget.
  rewrite decide_True by done. rewrite Hinstr, Hkind, Harg. cbn.
  rewrite bool_decide_true by done. cbn.
  by rewrite (set_arg_sole _ _ _ _ instr).
Qed.

Lemma deferred_at_insert_ne p i x addr :
  Z.to_nat addr ≠ i → deferred_at p addr → deferred_at (<[i := x]> p) addr.
Proof.
  intros Hne (Hge & instr & Hl & Hrest)%deferred_at_spec.
  apply deferred_at_spec. split; [done|]. exists instr. split; [|done].
  by rewrite list_lookup_insert_ne.
Qed.

Lemma link_loop_resolve objs lbls items p :
  NoDup (Dict.keys items) →
  Forall (λ addr, deferred_at p addr) (Dict.keys items) →
  Forall (λ addr, sole objs (Z.to_nat addr)) (Dict.keys items) →
  Forall (λ kv, is_Some (lbls !! kv.2)) items →
  Unit.link_loop objs lbls items p = Ok (resolve lbls items p).
Proof.
  revert p.
  induction items as [|[addr name] items IH]; intros p Hnd Hdef Hsole Hres;
    cbn.
  - f_equal. unfold resolve. symmetry. apply list_eq. intros i.
    rewrite list_lookup_imap. by destruct (p !! i).
  - apply NoDup_cons in Hnd as [Hfresh Hnd].
    apply Forall_cons in Hdef as [Hhead Hdef].
    apply Forall_cons in Hsole as [Hsole_head Hsole].
    apply Forall_cons in Hres as [[target Htarget] Hres].
    cbn in Hfresh, Hhead, Hsole_head, Htarget.
    fold (Dict.keys items) in Hfresh, Hnd, Hdef, Hsole.
    pose proof (deferred_at_lt _ _ Hhead) as Hlt.
    destruct (link_step_deferred objs lbls p addr name target)
      as (instr & Hinstr & ->); [done..|].
    rewrite IH; [|done| |done|done].
    + f_equal. unfold resolve. apply list_eq. intros i.
      rewrite !list_lookup_imap. cbn.
      destruct (decide (i = Z.to_nat addr)) as [->|Hne].
      * rewrite list_lookup_insert_eq by (apply lookup_lt_Some in Hinstr; lia).
        rewrite Hinstr. cbn. rewrite Z2Nat.id by lia.
        rewrite decide_True by done. rewrite Htarget.
        apply Dict_get_None in Hfresh. by rewrite Hfresh.
      * rewrite list_lookup_insert_ne by done.
        rewrite decide_False by lia. done.
    + apply Forall_forall. intros addr' Hin.
      rewrite Forall_forall in Hdef. specialize (Hdef addr' Hin).
      apply deferred_at_insert_ne; [|done].
      pose proof (deferred_at_lt _ _ Hdef).
      intros Heq. apply Hfresh. by replace addr with addr' by lia.
Qed.

Lemma unknown_label_inj name name' :
  unknown_label name = unknown_label name' → name = name'.
Proof. unfold unknown_label. cbn. intros [= H]. exact H. Qed.

Lemma link_step_Raise_label objs lbls p addr name name' :
  Unit.link_step objs lbls p addr name = Raise (unknown_label name') →
  name' = name ∧ lbls !! name = None.
Proof.
  unfold Unit.link_step. destruct (lbls !! name) as [target|].
  - destruct (Unit.py_index p addr) as [i|]; [|done].
    destruct (p !! i) as [instr|]; [|done].
    destruct (negb (Unit.is_jump_kind (kind instr))); [done|].
    by destruct (negb (bool_decide (arg instr = Some _DUMMY_ADDR))).
  - intros Heq. split; [|done]. symmetry. apply unknown_label_inj.
    congruence.
Qed.

Lemma link_loop_Raise_label objs lbls items p name :
  Unit.link_loop objs lbls items p = Raise (unknown_label name) →
  ∃ addr, (addr, name) ∈ items ∧ lbls !! name = None.
Proof.
  revert p. induction items as [|[addr name'] items IH]; intros p; cbn.
  - done.
  - destruct (Unit.link_step objs lbls p addr name') as [p'|e] eqn:Hstep.
    + intros [addr' [Hin Hnone]]%IH. exists addr'. split; [by right|done].
    + intros [= ->]. apply link_step_Raise_label in Hstep as [-> Hnone].
      exists addr. split; [left|done].
Qed.

(** On a unit whose deferred jumps are in order, the first deferred jump
    without a label stops [link] with the unknown-label error. *)
Lemma link_loop_unresolved objs lbls items p :
  NoDup (Dict.keys items) →
  Forall (λ addr, deferred_at p addr) (Dict.keys items) →
  Forall (λ addr, sole objs (Z.to_nat addr)) (Dict.keys items) →
  Exists (λ kv, lbls !! kv.2 = None) items →
  ∃ name, Unit.link_loop objs lbls items p = Raise (unknown_label name).
Proof.
  revert p.
  induction items as [|[addr name] items IH]; intros p Hnd Hdef Hsole Hex;
    cbn.
  - by apply Exists_nil in Hex.
  - apply NoDup_cons in Hnd as [Hfresh Hnd].
    apply Forall_cons in Hdef as [Hhead Hdef].
    apply Forall_cons in Hsole as [Hsole_head Hsole].
    cbn in Hfresh, Hhead, Hsole_head.
    fold (Dict.keys items) in Hfresh, Hnd, Hdef, Hsole.
    destruct (lbls !! name) as [target|] eqn:Htarget.
    + destruct (link_step_deferred objs lbls p addr name target)
        as (instr & _ & ->); [done..|].
      apply IH; [done| |done|].
      * apply Forall_forall. intros addr' Hin.
        rewrite Forall_forall in Hdef. apply deferred_at_insert_ne.
        -- pose proof (deferred_at_lt _ _ (Hdef addr' Hin)).
           pose proof (deferred_at_lt _ _ Hhead).
           intros Heq. apply Hfresh. by replace addr with addr' by lia.
        -- by apply Hdef.
      * apply Exists_cons in Hex as [Hex|Hex]; [|done].
        cbn in Hex. congruence.
    + exists name. unfold Unit.link_step. by rewrite Htarget.
Qed.

Lemma unresolved_Exists u :
  unresolved u ↔ Exists (λ kv, Unit.labels u !! kv.2 = None) (Unit.jumps u).
Proof.
  unfold unresolved. rewrite Exists_exists. split.
  - intros (addr & name & Hin & Hnone). by exists (addr, name).
  - intros ([addr name] & Hin & Hnone). by exists addr, name.
Qed.

Lemma link_objs_resolved objs u :
  jumps_wf u → jumps_unshared objs u → ¬ unresolved u →
  Unit.link_objs objs u
  = Ok (Unit.set_instrs
          (resolve (Unit.labels u) (Unit.jumps u) (Unit.instrs u)) u).
Proof.
  intros [Hnd Hdef]%jumps_wf_spec Hsole%jumps_unshared_spec Hres.
  unfold Unit.link_objs.
  rewrite link_loop_resolve; [done..|].
  apply Forall_forall. intros [addr name] Hin. cbn.
  destruct (Unit.labels u !! name) eqn:Hl; [done|].
  destruct Hres. by exists addr, name.
Qed.

Lemma link_objs_unresolved objs u :
  jumps_wf u → jumps_unshared objs u → unresolved u →
  ∃ name, Unit.link_objs objs u = Raise (unknown_label name).
Proof.
  intros [Hnd Hdef]%jumps_wf_spec Hsole%jumps_unshared_spec
    Hun%unresolved_Exists.
  destruct (link_loop_unresolved objs _ _ _ Hnd Hdef Hsole Hun)
    as [name Hloop].
  exists name. unfold Unit.link_objs. by rewrite Hloop.
Qed.

Lemma link_resolved u :
  jumps_wf u → ¬ unresolved u →
  Unit.link u
  = Ok (Unit.set_instrs
          (resolve (Unit.labels u) (Unit.jumps u) (Unit.instrs u)) u).
Proof.
  intros Hwf Hres. apply link_objs_resolved; [done| |done].
  by apply jumps_unshared_seq.
Qed.

Lemma link_unresolved u :
  jumps_wf u → unresolved u →
  ∃ name, Unit.link u = Raise (unknown_label name).
Proof.
  intros Hwf Hun. apply link_objs_unresolved; [done| |done].
  by apply jumps_unshared_seq.
Qed.

(** *** The claim about [link] *)

Example linked_once_is_linked :
  Unit.link (Unit.new |> Unit.label "a" |> Unit.jmp "a") = Ok linked_once
  ∧ Unit.link linked_once = Raise AssertionError.
Proof. split; reflexivity. Qed.

(** The deferred jumps of [inserted_twice] are in order and both have
    their label, but they are one object: the first iteration of [link]
    gives it its operand, and the second one finds the sentinel gone. *)
Example inserted_twice_is_not_linked :
  jumps_wf inserted_twice
  ∧ Unit.instrs inserted_twice
    = [mkInstr InstrKind.Jmp (Some _DUMMY_ADDR);
       mkInstr InstrKind.Jmp (Some _DUMMY_ADDR)]
  ∧ Unit.jumps inserted_twice = [(0, "a"); (1, "a")]
  ∧ Unit.labels inserted_twice !! "a" = Some 1
  ∧ Unit.link_objs inserted_twice_objs inserted_twice = Raise AssertionError.
Proof. by vm_compute. Qed.

(** C1, as stated, fails in two ways.  Every deferred jump of [linked_once]
    has its label, yet [link] raises [AssertionError] on it, because the
    operand is no longer the sentinel.  And every deferred jump of
    [inserted_twice] has its label and still holds the sentinel, yet [link]
    raises [AssertionError] on it, because its two jumps are one object. *)
Lemma link_as_specified_fails :
  ¬ link_as_specified [0%nat] linked_once
  ∧ ¬ link_as_specified inserted_twice_objs inserted_twice.
Proof.
  split.
  - intros [_ Hok]. destruct Hok as (u' & Hlink & _).
    + intros (addr & name & Hin & Hnone).
      apply list_elem_of_singleton in Hin as [= -> ->].
      by vm_compute in Hnone.
    + by vm_compute in Hlink.
  - intros [_ Hok]. destruct Hok as (u' & Hlink & _).
    + intros (addr & name & Hin & Hnone).
      assert (name = "a") as ->.
      { vm_compute in Hin.
        apply elem_of_cons in Hin as [[= _ ->]|Hin]; [done|].
        by apply list_elem_of_singleton in Hin as [= _ ->]. }
      by vm_compute in Hnone.
    + by vm_compute in Hlink.
Qed.

(** C1 (amended): on a unit whose deferred jumps are in order (each address
    in [jumps] is the index of a Jmp, JmpF, JmpT or Call whose operand is
    still the sentinel, as in every unit the assembler builds before it is
    linked) and whose deferred jumps' instruction objects each sit at one
    index only (as in every unit the assembler builds without inserting a
    unit twice), [link] raises the unknown-label error exactly when some
    deferred jump names no label; otherwise it succeeds, puts
    [labels[name] - 1] in the operand of the instruction at each [addr] of
    [jumps], and changes no other instruction. *)
Theorem link_as_specified_wf (objs : list nat) (u : Unit.t) :
  jumps_wf u → jumps_unshared objs u → link_as_specified objs u.
Proof.
  intros Hwf Hsole. pose proof Hwf as [Hnd Hdef]%jumps_wf_spec. split.
  - split.
    + intros [name Hlink]. unfold Unit.link_objs in Hlink.
      destruct (Unit.link_loop _ _ _ _) as [p|e] eqn:Hloop; [done|].
      injection Hlink as ->.
      apply link_loop_Raise_label in Hloop as [addr [Hin Hnone]].
      by exists addr, name.
    + by apply link_objs_unresolved.
  - intros Hres. eexists. split; [by apply link_objs_resolved|].
    split.
    + intros addr name Hin.
      assert (addr ∈ Dict.keys (Unit.jumps u)) as Hkey.
      { by apply (list_elem_of_fmap_2 fst) in Hin. }
      rewrite Forall_forall in Hdef. specialize (Hdef addr Hkey).
      pose proof (deferred_at_lt _ _ Hdef) as Hlt.
      apply deferred_at_spec in Hdef as (_ & instr & Hinstr & _).
      destruct (Unit.labels u !! name) as [target|] eqn:Htarget.
      2:{ destruct Hres. by exists addr, name. }
      exists instr, target. unfold instr_at, Unit.py_index. cbn.
      rewrite length_resolve. rewrite !decide_True by done. cbn.
      split_and!; [done|done|].
      unfold resolve. rewrite list_lookup_imap, Hinstr. cbn.
      rewrite Z2Nat.id by lia.
      by rewrite (Dict_get_elem_of addr name), Htarget.
    + intros i Hnot. cbn. unfold resolve. rewrite list_lookup_imap.
      destruct (Unit.instrs u !! i) as [instr|] eqn:Hinstr; [|done]. cbn.
      destruct (Dict.get (Z.of_nat i) (Unit.jumps u)) as [name|] eqn:Hget;
        [|done].
      apply Dict_get_Some, (list_elem_of_fmap_2 fst) in Hget. cbn in Hget.
      destruct (Hnot _ Hget). unfold Unit.py_index.
      apply lookup_lt_Some in Hinstr.
      rewrite decide_True by lia. by rewrite Nat2Z.id.
Qed.

(** A unit that links: the Push object is the same at indices 1 and 3, the
    jumps are objects of their own, and [link] gives the Jmp at 0 the
    operand 1 and the Call at 2 the operand 3. *)
Lemma link_as_specified_wf_witness :
  let pushes := Unit.new |> Unit.push 7 in
  let u := Unit.new |> Unit.jmp "b" |> Unit.insert pushes
           |> Unit.label "b" |> Unit.call "a" |> Unit.insert pushes
           |> Unit.label "a" in
  let objs := [0%nat; 1%nat; 2%nat; 1%nat] in
  jumps_wf u ∧ jumps_unshared objs u
  ∧ Unit.link_objs objs u
    = Ok (Unit.set_instrs
            [mkInstr InstrKind.Jmp (Some 1); mkInstr InstrKind.Push (Some 7);
             mkInstr InstrKind.Call (Some 3); mkInstr InstrKind.Push (Some 7)]
            u)
  ∧ link_as_specified objs u.
Proof.
  split; [by vm_compute|]. split; [by vm_compute|].
  split; [by vm_compute|].
  apply (link_as_specified_wf
           [0%nat; 1%nat; 2%nat; 1%nat]
           (Unit.new |> Unit.jmp "b"
            |> Unit.insert (Unit.new |> Unit.push 7)
            |> Unit.label "b" |> Unit.call "a"
            |> Unit.insert (Unit.new |> Unit.push 7)
            |> Unit.label "a")); by vm_compute.
Defined.

(** *** The claim about [insert] *)

Example capture_links :
  Unit.link capture_A
  = Ok (Unit.set_instrs [mkInstr InstrKind.Jmp (Some (-1))] capture_A)
  ∧ Unit.link capture_B
    = Ok (Unit.set_instrs [mkInstr InstrKind.Push (Some 1)] capture_B)
  ∧ Unit.link (Unit.insert capture_B capture_A)
    = Ok (Unit.set_instrs
            [mkInstr InstrKind.Jmp (Some 0); mkInstr InstrKind.Push (Some 1)]
            (Unit.insert capture_B capture_A)).
Proof. split_and!; reflexivity. Qed.

(** C7, as stated, fails: linked on its own, [capture_A] jumps to its own
    ["x"] (operand -1); after [capture_B] is inserted, the label ["x"] of
    [capture_B] has replaced it, and the same jump gets the operand 0. *)
Lemma insert_as_specified_fails : ¬ insert_as_specified capture_A capture_B.
Proof.
  intros (_ & _ & _ & _ & _ & Hlink).
  destruct capture_links as (HA & HB & HAB).
  destruct (Hlink _ _ HA HB) as (AB' & HAB' & Hinstrs).
  rewrite HAB in HAB'. injection HAB' as <-. by vm_compute in Hinstrs.
Qed.

Lemma link_Ok_resolved u u' :
  jumps_wf u → Unit.link u = Ok u' →
  ¬ unresolved u
  ∧ u' = Unit.set_instrs
           (resolve (Unit.labels u) (Unit.jumps u) (Unit.instrs u)) u.
Proof.
  intros Hwf Hlink.
  assert (¬ unresolved u) as Hres.
  { intros Hun. destruct (link_unresolved u Hwf Hun) as [name Hraise].
    by rewrite Hraise in Hlink. }
  split; [done|]. rewrite link_resolved in Hlink by done. by injection Hlink.
Qed.

Lemma merge_at_seam_is_Some sep at_here (c : gmap Z string) addr :
  is_Some (c !! addr) → is_Some (Unit.merge_at_seam sep at_here c !! addr).
Proof.
  unfold Unit.merge_at_seam. destruct at_here as [mine|]; [|done].
  destruct (c !! 0) as [theirs|] eqn:H0; [|done].
  intros Hin. rewrite lookup_insert_is_Some.
  destruct (decide (0 = addr)); [by left|by right].
Qed.

Lemma resolve_insert A B :
  jumps_wf A → jumps_wf B → no_capture A B →
  ¬ unresolved A → ¬ unresolved B →
  let AB := Unit.insert B A in
  ¬ unresolved AB
  ∧ resolve (Unit.labels AB) (Unit.jumps AB) (Unit.instrs AB)
    = resolve (Unit.labels A) (Unit.jumps A) (Unit.instrs A)
      ++ rebase (Unit.here A) (Unit.jumps B)
           (resolve (Unit.labels B) (Unit.jumps B) (Unit.instrs B)).
Proof.
  intros HwfA HwfB Hcap HresA HresB AB.
  assert (Unit.jumps AB
          = Unit.jumps A
            ++ (prod_map (λ addr, addr + Unit.here A) id <$> Unit.jumps B))
    as Hjumps by by apply jumps_insert.
  unfold no_capture in Hcap. rewrite forallb_True, Forall_forall in Hcap.
  assert (∀ addr name, (addr, name) ∈ Unit.jumps A →
            Unit.labels AB !! name = Unit.labels A !! name) as HlA.
  { intros addr name Hin. specialize (Hcap _ Hin).
    apply bool_decide_unpack in Hcap. cbn in Hcap |- *.
    apply lookup_union_r. by rewrite lookup_fmap, Hcap. }
  assert (∀ name target, Unit.labels B !! name = Some target →
            Unit.labels AB !! name = Some (target + Unit.here A)) as HlB.
  { intros name target Hl. cbn. apply lookup_union_Some_l.
    by rewrite lookup_fmap, Hl. }
  assert (∀ addr name, (addr, name) ∈ Unit.jumps A →
            is_Some (Unit.labels A !! name)) as HsA.
  { intros addr name Hin. destruct (Unit.labels A !! name) eqn:Hl; [done|].
    destruct HresA. by exists addr, name. }
  assert (∀ addr name, (addr, name) ∈ Unit.jumps B →
            is_Some (Unit.labels B !! name)) as HsB.
  { intros addr name Hin. destruct (Unit.labels B !! name) eqn:Hl; [done|].
    destruct HresB. by exists addr, name. }
  assert (Unit.instrs AB = Unit.instrs A ++ Unit.instrs B) as Hinstrs by done.
  clearbody AB.
  apply jumps_wf_spec in HwfA as [HndA HdefA].
  apply jumps_wf_spec in HwfB as [HndB HdefB].
  rewrite Forall_forall in HdefA, HdefB.
  split.
  - intros (addr & name & Hin & Hnone). rewrite Hjumps in Hin.
    apply elem_of_app in Hin as [Hin|Hin].
    + rewrite (HlA _ _ Hin) in Hnone. destruct (HsA _ _ Hin). congruence.
    + apply list_elem_of_fmap in Hin as ([addr' name'] & [= -> ->] & Hin).
      destruct (HsB _ _ Hin) as [target Hl].
      rewrite (HlB _ _ Hl) in Hnone. done.
  - rewrite Hjumps, Hinstrs. unfold resolve at 1.
    rewrite imap_app. f_equal.
    + apply imap_ext. intros i instr Hinstr. cbn beta.
      rewrite Dict_get_app.
      destruct (Dict.get (Z.of_nat i) (Unit.jumps A)) as [name|] eqn:Hget.
      * apply Dict_get_Some in Hget. by rewrite (HlA _ _ Hget).
      * destruct (Dict.get _ (_ <$> Unit.jumps B)) as [name|] eqn:Hget';
          [|done].
        apply Dict_get_Some, list_elem_of_fmap in Hget'
          as ([addr' name'] & [= Haddr ->] & Hin).
        apply (list_elem_of_fmap_2 fst), HdefB, deferred_at_lt in Hin.
        apply lookup_lt_Some in Hinstr. unfold Unit.here in Haddr.
        cbn in Hin. lia.
    + unfold rebase, resolve. apply list_eq. intros j.
      rewrite !list_lookup_imap.
      destruct (Unit.instrs B !! j) as [instr|] eqn:Hinstr; [|done]. cbn.
      f_equal. rewrite Dict_get_app.
      destruct (Dict.get (Z.of_nat (length (Unit.instrs A) + j))
                  (Unit.jumps A)) as [name|] eqn:Hget.
      { apply Dict_get_Some, (list_elem_of_fmap_2 fst), HdefA,
          deferred_at_lt in Hget. cbn in Hget. lia. }
      replace (Z.of_nat (length (Unit.instrs A) + j))
        with (Z.of_nat j + Unit.here A) by (unfold Unit.here; lia).
      rewrite Dict_get_shift.
      destruct (Dict.get (Z.of_nat j) (Unit.jumps B)) as [name|] eqn:HgetB.
      * pose proof (Dict_get_Some _ _ _ HgetB) as Hin.
        destruct (HsB _ _ Hin) as [target Hl].
        rewrite (HlB _ _ Hl), Hl.
        rewrite bool_decide_true
          by by apply (list_elem_of_fmap_2 fst) in Hin.
        cbn. do 2 f_equal. lia.
      * apply Dict_get_None in HgetB. by rewrite bool_decide_false.
Qed.

(** C7 (amended): for units [A] and [B] whose deferred jumps are in order,
    where no deferred jump of [A] names a label that [B] declares, inserting
    [B] into [A] keeps the instructions of [A] as a prefix, appends those of
    [B], and adds each label, deferred jump and comment index of [B] moved
    by the instruction count of [A]; and when [A] and [B] link on their own,
    the combined unit links to the linked instructions of [A] followed by
    those of [B] with the operands of [B]'s jumps moved by that count. *)
Theorem insert_as_specified_no_capture (A B : Unit.t) :
  jumps_wf A → jumps_wf B → no_capture A B → insert_as_specified A B.
Proof.
  intros HwfA HwfB Hcap. unfold insert_as_specified. split_and!.
  - done.
  - intros name addr Hl. cbn. apply lookup_union_Some_l.
    by rewrite lookup_fmap, Hl.
  - intros addr name Hin. rewrite jumps_insert by done.
    apply elem_of_app. right.
    by apply (list_elem_of_fmap_2
                (prod_map (λ addr, addr + Unit.here A) id) _ (addr, name)).
  - intros addr Hin. cbn. apply lookup_union_is_Some. left.
    rewrite (lookup_kmap (λ addr, addr + Unit.here A)).
    by apply merge_at_seam_is_Some.
  - intros addr Hin. cbn. apply lookup_union_is_Some. left.
    rewrite (lookup_kmap (λ addr, addr + Unit.here A)).
    by apply merge_at_seam_is_Some.
  - intros A' B' [HresA ->]%link_Ok_resolved [HresB ->]%link_Ok_resolved;
      [|done..].
    destruct (resolve_insert A B HwfA HwfB Hcap HresA HresB) as [Hres Heq].
    eexists. split.
    + apply link_resolved; [by apply jumps_wf_insert|done].
    + exact Heq.
Qed.

Lemma insert_as_specified_no_capture_witness :
  let A := Unit.new |> Unit.label "x" |> Unit.jmp "x" |> Unit.push 7 in
  let B := Unit.new |> Unit.label "y" |> Unit.push 1 |> Unit.jmp_t "y" in
  jumps_wf A ∧ jumps_wf B ∧ no_capture A B ∧ insert_as_specified A B.
Proof.
  split_and!; [by vm_compute..|].
  apply (insert_as_specified_no_capture
           (Unit.new |> Unit.label "x" |> Unit.jmp "x" |> Unit.push 7)
           (Unit.new |> Unit.label "y" |> Unit.push 1 |> Unit.jmp_t "y"));
    by vm_compute.
Defined.

(** The witness above, linked: the jump of [B] lands on [B]'s label, two
    instructions further on. *)
Example insert_then_link :
  let A := Unit.new |> Unit.label "x" |> Unit.jmp "x" |> Unit.push 7 in
  let B := Unit.new |> Unit.label "y" |> Unit.push 1 |> Unit.jmp_t "y" in
  Unit.link (Unit.insert B A)
  = Ok (Unit.set_instrs
          [ mkInstr InstrKind.Jmp (Some (-1)); mkInstr InstrKind.Push (Some 7);
            mkInstr InstrKind.Push (Some 1); mkInstr InstrKind.JmpT (Some 1) ]
          (Unit.insert B A)).
Proof. reflexivity. Qed.

(** ** The layout of a while-loop *)

Lemma synthetic_label_inj (k k' : Z) :
  "__" +:+ pretty k = "__" +:+ pretty k' → k = k'.
Proof. cbn. intros [= H]. by apply (inj pretty). Qed.

Lemma Dict_get_beyond u k :
  jumps_wf u → Unit.here u ≤ k → Dict.get k (Unit.jumps u) = None.
Proof.
  intros [_ Hdef]%jumps_wf_spec Hk. apply Dict_get_None. intros Hin.
  rewrite Forall_forall in Hdef. apply Hdef, deferred_at_lt in Hin.
  unfold Unit.here in Hk. lia.
Qed.

Lemma gen_while_loop_units guard_expr body_stmt s u s' :
  gen_while_loop gen_stmt guard_expr body_stmt s = Ok (u, s') →
  let inner := mkGenState (Namespace.push (ns s)) (_next_label_id s) in
  ∃ guard body sb',
    gen_expr guard_expr inner = Ok (guard, inner)
    ∧ gen_stmt body_stmt inner = Ok (body, sb')
    ∧ let start_label := "__" +:+ pretty (_next_label_id sb' + 1) in
      let guard_label := "__" +:+ pretty (_next_label_id sb' + 2) in
      let end_label := "__" +:+ pretty (_next_label_id sb' + 3) in
      let nb := Unit.here body in
      let ng := Unit.here guard in
      Unit.instrs u
      = [mkInstr InstrKind.Jmp (Some _DUMMY_ADDR)]
        ++ Unit.instrs body
        ++ Unit.instrs guard
        ++ [mkInstr InstrKind.JmpT (Some _DUMMY_ADDR)]
      ∧ Dict.get 0 (Unit.jumps u) = Some guard_label
      ∧ Dict.get (1 + nb + ng) (Unit.jumps u) = Some start_label
      ∧ Unit.labels u !! start_label = Some 1
      ∧ Unit.labels u !! guard_label = Some (1 + nb)
      ∧ Unit.labels u !! end_label = Some (2 + nb + ng).
Proof.
  intros Hrun. unfold gen_while_loop in Hrun.
  gen_step Hrun. apply ns_push_Ok in Hm. simplify_eq.
  gen_step Hrun. pose proof Hm as Hguard.
  apply gen_expr_inv in Hm as (-> & Hlg & Hwfg).
  gen_step Hrun. rewrite ns_pop_push in Hm. simplify_eq.
  gen_step Hrun. apply ns_push_Ok in Hm. simplify_eq.
  gen_step Hrun. pose proof Hm as Hbody.
  apply gen_stmt_inv in Hm as (_ & Hc & Hlb & Hwfb).
  gen_step Hrun. apply ns_pop_Ok in Hm as (s4 & [= _ ->] & Hc' & _).
  gen_step Hrun. apply new_label_Ok in Hm as [= -> ->].
  gen_step Hrun. apply new_label_Ok in Hm as [= -> ->].
  gen_step Hrun. apply new_label_Ok in Hm as [= -> ->].
  apply gen_ret_Ok in Hrun as [= -> ->]. cbn [_next_label_id ns] in *.
  cbn zeta. eexists _, _, _. split; [exact Hguard|]. split; [exact Hbody|].
  rewrite Hc'. set (c := _next_label_id s0) in *.
  replace (c + 1 + 1 + 1) with (c + 3) by lia.
  replace (c + 1 + 1) with (c + 2) by lia.
  set (start_label := "__" +:+ pretty (c + 1)).
  set (guard_label := "__" +:+ pretty (c + 2)).
  set (end_label := "__" +:+ pretty (c + 3)).
  assert (guard_label ≠ start_label) as Hgs
    by (intros ?%synthetic_label_inj; lia).
  assert (end_label ≠ start_label) as Hes
    by (intros ?%synthetic_label_inj; lia).
  assert (end_label ≠ guard_label) as Heg
    by (intros ?%synthetic_label_inj; lia).
  set (u1 := Unit.comment "while body {"
               (Unit.label start_label
                  (Unit.jmp guard_label
                     (Unit.comment "while loop {" Unit.new)))).
  assert (jumps_wf u1) as Hwf1 by (subst u1; eauto 10 with unit_wf).
  set (u2 := Unit.comment "while guard {"
               (Unit.comment "} while body" (Unit.insert a0 u1))).
  assert (jumps_wf u2) as Hwf2 by (subst u2; eauto 10 with unit_wf).
  assert (∃ rest, Unit.jumps u2 = (0, guard_label) :: rest) as [rest2 Hj2].
  { subst u2. cbn [Unit.comment Unit.jumps Unit.set_comments].
    rewrite (jumps_insert a0 u1) by done. by eexists. }
  assert (Unit.here u2 = 1 + Unit.here a0) as Hh2.
  { unfold Unit.here. subst u2 u1. cbn. rewrite ?length_app. cbn. lia. }
  set (u3 := Unit.insert a (Unit.label guard_label u2)).
  assert (jumps_wf u3) as Hwf3 by (subst u3; eauto 10 with unit_wf).
  assert (∃ rest, Unit.jumps u3 = (0, guard_label) :: rest) as [rest3 Hj3].
  { subst u3. rewrite jumps_insert by eauto with unit_wf.
    cbn [Unit.label Unit.jumps Unit.set_labels]. rewrite Hj2. by eexists. }
  assert (Unit.here u3 = 1 + Unit.here a0 + Unit.here a) as Hh3.
  { unfold Unit.here in *. subst u3. cbn. rewrite ?length_app. cbn in Hh2.
    lia. }
  set (u4 := Unit.jmp_t start_label u3).
  assert (Unit.jumps u4 = Unit.jumps u3 ++ [(Unit.here u3, start_label)])
    as Hj4 by by apply jumps_deferred.
  assert (Unit.here u4 = 2 + Unit.here a0 + Unit.here a) as Hh4.
  { unfold Unit.here in *. subst u4. cbn. rewrite ?length_app. cbn. lia. }
  cbn [Unit.comment Unit.label Unit.instrs Unit.jumps Unit.labels
       Unit.set_comments Unit.set_labels].
  change (Unit.here (Unit.comment "} while guard" u4)) with (Unit.here u4).
  split_and!.
  - subst u4 u3 u2 u1. cbn. by rewrite <- !app_assoc.
  - rewrite Hj4, Hj3. cbn. by rewrite decide_True.
  - rewrite Hj4, Dict_get_app, <- Hh3.
    rewrite (Dict_get_beyond u3) by (done || lia).
    cbn. by rewrite decide_True.
  - rewrite lookup_insert_ne by done.
    subst u4 u3. cbn. rewrite Hlg, fmap_empty, (left_id_L ∅ (∪)).
    rewrite lookup_insert_ne by done.
    subst u2 u1. cbn. rewrite lookup_union_r.
    + by rewrite lookup_insert_eq.
    + rewrite lookup_fmap.
      destruct (Unit.labels a0 !! start_label) as [x|] eqn:Hx; [|done].
      destruct (Hlb start_label) as (k & Hk & Heq); [by eexists|].
      apply synthetic_label_inj in Heq. lia.
  - rewrite lookup_insert_ne by done.
    subst u4 u3. cbn. rewrite Hlg, fmap_empty, (left_id_L ∅ (∪)).
    rewrite lookup_insert_eq. by rewrite Hh2.
  - rewrite lookup_insert_eq. by rewrite Hh4.
Qed.

(** C4: the unit generated for a while-loop is a Jmp deferred to the guard
    label, the start label (index 1), the body's instructions, the guard
    label, the guard's instructions, a JmpT deferred to the start label, and
    the end label after it.  Linked, the first jump carries the index of the
    guard's first instruction less one, so the machine goes from it to the
    guard, and the JmpT carries 0, so it goes back to index 1, the start of
    the body. *)
Theorem gen_while_loop_layout guard_expr body_stmt s u s' :
  gen_while_loop gen_stmt guard_expr body_stmt s = Ok (u, s') →
  while_loop_layout guard_expr body_stmt s u.
Proof.
  intros (guard & body & sb' & Hguard & Hbody & Hlayout)
    %gen_while_loop_units.
  exists guard, body, sb'. split; [done|]. split; [done|].
  cbn zeta in *.
  destruct Hlayout as (Hinstrs & Hj0 & Hjn & Hls & Hlg & Hle).
  split_and!; try done.
  - unfold resolve. rewrite list_lookup_imap, Hinstrs. cbn.
    change (Z.of_nat 0) with 0. rewrite Hj0, Hlg. do 3 f_equal. lia.
  - assert (Unit.instrs u !! Z.to_nat (1 + Unit.here body + Unit.here guard)
            = Some (mkInstr InstrKind.JmpT (Some _DUMMY_ADDR))) as Hlast.
    { rewrite Hinstrs, !app_assoc. apply list_lookup_middle.
      rewrite !length_app. cbn. unfold Unit.here. lia. }
    unfold resolve. rewrite list_lookup_imap, Hlast. cbn.
    rewrite Z2Nat.id by (unfold Unit.here; lia).
    by rewrite Hjn, Hls.
Qed.

Lemma gen_while_loop_layout_witness :
  let guard_expr := Expr_Lit (Lit_Int (mkInt 0)) in
  let body_stmt :=
    Stmt_Expr (Expr_FnCall "print" [Expr_Lit (Lit_Int (mkInt 7))]) in
  ∃ u s',
    gen_while_loop gen_stmt guard_expr body_stmt
      (mkGenState Namespace.new (-1)) = Ok (u, s')
    ∧ while_loop_layout guard_expr body_stmt (mkGenState Namespace.new (-1)) u.
Proof.
  eexists _, _. split; [reflexivity|].
  eapply (gen_while_loop_layout
            (Expr_Lit (Lit_Int (mkInt 0)))
            (Stmt_Expr (Expr_FnCall "print" [Expr_Lit (Lit_Int (mkInt 7))]))
            (mkGenState Namespace.new (-1))).
  reflexivity.
Defined.

(** ** The entry stub and [main] *)

Lemma instrs_assemble body :
  take 5 (Unit.instrs (assemble body)) = entry_stub.
Proof. reflexivity. Qed.

Lemma jumps_intrinsics u : Unit.jumps (Unit.intrinsics u) = Unit.jumps u.
Proof. reflexivity. Qed.

Lemma labels_label name u :
  Unit.labels (Unit.label name u) = <[name := Unit.here u]> (Unit.labels u).
Proof. reflexivity. Qed.

Lemma labels_insert_lookup unit self name :
  Unit.labels unit !! name = None →
  Unit.labels (Unit.insert unit self) !! name = Unit.labels self !! name.
Proof.
  intros Hnone. cbn. apply lookup_union_r. by rewrite lookup_fmap, Hnone.
Qed.

(** The intrinsics declare [add], [sub], [shl], [print], [exit] and
    [return], and no [main]. *)
Lemma labels_intrinsics_main u :
  Unit.labels (Unit.intrinsics u) !! "main" = Unit.labels u !! "main".
Proof.
  unfold Unit.intrinsics. cbn [foldl Unit.binary_ops Unit.unary_ops].
  unfold Unit.ret, Unit.rot, Unit.pop, Unit.halt, Unit.print, Unit.push,
    Unit.add, Unit.sub, Unit.shl.
  repeat first
    [ rewrite labels_comment
    | rewrite labels_add_instr
    | rewrite labels_load_tos
    | rewrite labels_label, lookup_insert_ne by done
    | rewrite labels_insert_lookup by done ].
  done.
Qed.

Lemma gen_stmt_no_main stmt s body s' :
  gen_stmt stmt s = Ok (body, s') → Unit.labels body !! "main" = None.
Proof.
  intros (_ & _ & Hlabels & _)%gen_stmt_inv.
  destruct (Unit.labels body !! "main") as [addr|] eqn:Hmain; [|done].
  destruct (Hlabels "main") as (k & _ & Heq); [by eexists|]. done.
Qed.

Lemma jumps_assemble body :
  jumps_wf body →
  Unit.jumps (assemble body)
  = (3, "main") :: (prod_map (λ addr, addr + 5) id <$> Unit.jumps body).
Proof.
  intros Hwf. unfold assemble. rewrite jumps_intrinsics.
  change (Unit.jumps (Unit.halt (Unit.insert body Unit.fresh)))
    with (Unit.jumps (Unit.insert body Unit.fresh)).
  by rewrite jumps_insert.
Qed.

Lemma link_assemble_no_main body :
  jumps_wf body → Unit.labels body !! "main" = None →
  Unit.link (assemble body) = Raise (unknown_label "main").
Proof.
  intros Hwf Hmain. unfold Unit.link, Unit.link_objs.
  rewrite jumps_assemble by done.
  cbn [Unit.link_loop]. unfold Unit.link_step.
  unfold assemble. rewrite labels_intrinsics_main.
  change (Unit.labels (Unit.halt (Unit.insert body Unit.fresh)))
    with (Unit.labels (Unit.insert body Unit.fresh)).
  by rewrite labels_insert_lookup.
Qed.

(** C10: whatever the top-level statement, the unit handed to [link] begins
    with Push 8, Push 0, Store, Call, Halt, and the Call at index 3 is the
    first deferred jump, to ["main"]; so when the statement's unit declares
    no label ["main"], [gen] ends in [link] with the unknown-label error for
    ["main"]. *)
Theorem gen_entry_stub stmt c body s' :
  gen_stmt stmt (mkGenState Namespace.new c) = Ok (body, s') →
  take 5 (Unit.instrs (assemble body)) = entry_stub
  ∧ head (Unit.jumps (assemble body)) = Some (3, "main")
  ∧ (Unit.labels body !! "main" = None →
     gen stmt c = Raise (unknown_label "main")).
Proof.
  intros Hrun. pose proof Hrun as (_ & _ & _ & Hwf)%gen_stmt_inv.
  split_and!.
  - apply instrs_assemble.
  - by rewrite jumps_assemble.
  - intros Hmain. unfold gen. rewrite Hrun. by apply link_assemble_no_main.
Qed.

Lemma gen_entry_stub_witness :
  let stmt := Stmt_Block [Stmt_Expr (Expr_Lit (Lit_Int (mkInt 1)))] in
  ∃ body s',
    gen_stmt stmt (mkGenState Namespace.new (-1)) = Ok (body, s')
    ∧ take 5 (Unit.instrs (assemble body)) = entry_stub
    ∧ head (Unit.jumps (assemble body)) = Some (3, "main")
    ∧ (Unit.labels body !! "main" = None →
       gen stmt (-1) = Raise (unknown_label "main")).
Proof.
  eexists _, _. split; [reflexivity|].
  eapply (gen_entry_stub
            (Stmt_Block [Stmt_Expr (Expr_Lit (Lit_Int (mkInt 1)))]) (-1)).
  reflexivity.
Defined.

(** In this version no statement's unit declares ["main"] (a function
    definition raises before it emits its label), so [gen] never returns a
    program: it raises; and whenever the statement itself generates, the
    exception is the unknown-label error for ["main"]. *)
Lemma gen_never_returns stmt c :
  (∃ e, gen stmt c = Raise e)
  ∧ (∀ body s',
       gen_stmt stmt (mkGenState Namespace.new c) = Ok (body, s') →
       gen stmt c = Raise (unknown_label "main")).
Proof.
  assert (∀ body s',
            gen_stmt stmt (mkGenState Namespace.new c) = Ok (body, s') →
            gen stmt c = Raise (unknown_label "main")) as Hmain.
  { intros body s' Hrun. unfold gen. rewrite Hrun.
    pose proof Hrun as (_ & _ & _ & Hwf)%gen_stmt_inv.
    apply link_assemble_no_main; [done|]. by eapply gen_stmt_no_main. }
  split; [|done].
  destruct (gen_stmt stmt (mkGenState Namespace.new c)) as [[body s']|e]
    eqn:Hrun.
  - eexists. by eapply Hmain.
  - exists e. unfold gen. by rewrite Hrun.
Qed.

(** ** Which exceptions generation raises *)

Lemma gen_bind_Raise {A B} (m : M A) (k : A → M B) s e :
  gen_bind m k s = Raise e →
  m s = Raise e ∨ ∃ a s1, m s = Ok (a, s1) ∧ k a s1 = Raise e.
Proof.
  unfold gen_bind. destruct (m s) as [[a s1]|e']; intros Hk.
  - right. by exists a, s1.
  - injection Hk as ->. by left.
Qed.

Lemma gen_each_Raise {A B} (f : A → M B) (l : list A) s e :
  gen_each f l s = Raise e → ∃ x s1, x ∈ l ∧ f x s1 = Raise e.
Proof.
  revert s. induction l as [|x l IH]; intros s; cbn; [done|].
  intros [Hx|(y & s1 & _ & Hrest)]%gen_bind_Raise.
  - exists x, s. split; [left|done].
  - apply gen_bind_Raise in Hrest as [Hrest|(ys & s2 & _ & Hret)]; [|done].
    destruct (IH _ Hrest) as (x' & s' & Hin & Hx').
    exists x', s'. split; [by right|done].
Qed.

Lemma ns_pop_Raise s e : ns_pop s = Raise e → depth_of s = 0%nat.
Proof.
  destruct s as [[stack md] c]. unfold ns_pop, Namespace.pop, depth_of; cbn.
  by destruct stack.
Qed.

Lemma ns_get_Raise name s e :
  ns_get name s = Raise e → e = unknown_identifier name.
Proof.
  unfold ns_get, Namespace.get.
  destruct (Namespace.get_from _ _) as [slot|e'] eqn:Hget; [done|].
  intros [= <-]. by apply get_from_Raise in Hget as [-> _].
Qed.

(** An expression fails only on an identifier that no frame binds. *)
Lemma gen_expr_errors expr :
  ∀ s e, gen_expr expr s = Raise e → ∃ name, e = unknown_identifier name.
Proof.
  induction expr as [[[v]]|[name]|name args IH] using Expr_ind;
    intros s e Hrun; cbn in Hrun.
  - done.
  - unfold gen_var in Hrun.
    apply gen_bind_Raise in Hrun as [Hget|(slot & s1 & _ & Hret)]; [|done].
    exists name. by eapply ns_get_Raise.
  - unfold gen_fn_call in Hrun.
    apply gen_bind_Raise in Hrun as [Hargs|(units & s1 & Hargs & Hrest)].
    + apply gen_each_Raise in Hargs as (x & s1 & Hin & Hx).
      rewrite Forall_forall in IH. by eapply IH.
    + apply (gen_each_invariant gen_expr (λ s1 s2, s2 = s1) (λ _ _ _, True))
        in Hargs as [-> _]; [|done|congruence|done|].
      2:{ apply Forall_forall. intros x _ sx y sx' Hy.
          by apply gen_expr_inv in Hy as (-> & _). }
      apply gen_bind_Raise in Hrest as [Hpop|(? & ? & _ & Hret)]; [|done].
      by rewrite ns_pop_push in Hpop.
Qed.

(** A statement fails only on an identifier that no frame binds, or with the
    [TypeError] of a declaration or a function definition. *)
Lemma gen_stmt_errors stmt :
  ∀ s e, gen_stmt stmt s = Raise e →
         e = TypeError ∨ ∃ name, e = unknown_identifier name.
Proof.
  induction stmt as [children IH|child|name arg_names stmt _|guard body IH
                     |child|[name expr]] using Stmt_ind;
    intros s e Hrun.
  - cbn in Hrun.
    apply gen_bind_Raise in Hrun as [Hch|(units & s1 & Hch & Hrest)].
    + apply gen_each_Raise in Hch as (x & s1 & Hin & Hx).
      rewrite Forall_forall in IH. by eapply IH.
    + apply (gen_each_invariant gen_stmt
               (λ s1 s2, (depth_of s1 ≤ depth_of s2)%nat) (λ _ _ _, True))
        in Hch as [Hd _]; [|done|by etrans|done|].
      2:{ apply Forall_forall. intros x _ sx y sx' Hy.
          apply gen_stmt_inv in Hy as (? & _). split; [lia|done]. }
      apply gen_bind_Raise in Hrest as [Hpop|(? & ? & _ & Hret)]; [|done].
      apply ns_pop_Raise in Hpop. unfold depth_of in *. cbn [ns] in Hd.
      rewrite !length_stack_push in Hd. lia.
  - cbn in Hrun.
    apply gen_bind_Raise in Hrun as [Hexpr|(? & ? & _ & Hret)]; [|done].
    right. by eapply gen_expr_errors.
  - rewrite gen_stmt_fn_def in Hrun. left. congruence.
  - cbn in Hrun.
    apply gen_bind_Raise in Hrun as [Hguard|(g & s1 & Hguard & Hrun)].
    { right. by eapply gen_expr_errors. }
    apply gen_expr_inv in Hguard as (-> & _).
    apply gen_bind_Raise in Hrun as [Hpop|(? & s2 & Hpop & Hrun)].
    { by rewrite ns_pop_push in Hpop. }
    rewrite ns_pop_push in Hpop. simplify_eq.
    apply gen_bind_Raise in Hrun as [Hpush|(? & s3 & Hpush & Hrun)]; [done|].
    apply ns_push_Ok in Hpush. simplify_eq.
    apply gen_bind_Raise in Hrun as [Hbody|(b & s4 & Hbody & Hrun)].
    { by eapply IH. }
    apply gen_stmt_inv in Hbody as (Hd & _).
    apply gen_bind_Raise in Hrun as [Hpop|(? & s5 & Hpop & Hrun)].
    { apply ns_pop_Raise in Hpop. lia. }
    by repeat (apply gen_bind_Raise in Hrun as [?|(? & ? & _ & Hrun)]).
  - rewrite gen_stmt_var_decl in Hrun. left. congruence.
  - cbn in Hrun.
    apply gen_bind_Raise in Hrun as [Hexpr|(x & s1 & Hexpr & Hrun)].
    { right. by eapply gen_expr_errors. }
    apply gen_expr_inv in Hexpr as (-> & _).
    apply gen_bind_Raise in Hrun as [Hpop|(? & s2 & Hpop & Hrun)].
    { by rewrite ns_pop_push in Hpop. }
    apply gen_bind_Raise in Hrun as [Hget|(? & ? & _ & Hret)]; [|done].
    right. exists name. by eapply ns_get_Raise.
Qed.

(** [gen] raises one of three exceptions: the two [GenError]s of the
    specification, and the [TypeError] of declarations and definitions. *)
Lemma gen_errors stmt c e :
  gen stmt c = Raise e →
  e = TypeError
  ∨ (∃ name, e = unknown_identifier name)
  ∨ e = unknown_label "main".
Proof.
  intros Hgen.
  destruct (gen_stmt stmt (mkGenState Namespace.new c)) as [[body s']|e']
    eqn:Hrun.
  - destruct (gen_never_returns stmt c) as [_ Hmain].
    rewrite (Hmain _ _ Hrun) in Hgen. right. right. congruence.
  - unfold gen in Hgen. rewrite Hrun in Hgen. injection Hgen as <-.
    apply gen_stmt_errors in Hrun as [->|?]; [by left|by right; left].
Qed.

(** * Further properties *)

(** ** The scope resolver: declaring names *)

Lemma depth_snoc stack top md md' :
  Namespace.depth (Namespace.mk (stack ++ [top]) md)
  = Namespace.depth (Namespace.mk stack md') + Z.of_nat (size top).
Proof.
  unfold Namespace.depth. cbn. induction stack as [|fr stack IH]; cbn; lia.
Qed.

Lemma get_snoc name stack top md :
  Namespace.get name (Namespace.mk (stack ++ [top]) md)
  = match top !! name with
    | Some slot => Ok slot
    | None => Namespace.get name (Namespace.mk stack md)
    end.
Proof.
  unfold Namespace.get. cbn [Namespace.stack]. by rewrite reverse_snoc.
Qed.

Lemma add_name_Ok name ns outer top :
  Namespace.stack ns = outer ++ [top] → top !! name = None →
  Namespace.add_name name ns
  = Ok (Namespace.mk (outer ++ [<[name := Namespace.depth ns + 1]> top])
          (Z.max (Namespace._max_depth ns) (Namespace.depth ns))).
Proof.
  intros Hstack Hfree. unfold Namespace.add_name.
  rewrite Hstack, last_snoc, removelast_last.
  rewrite bool_decide_false; [done|]. rewrite Hfree. by intros [].
Qed.

Lemma add_name_redeclared name ns outer top :
  Namespace.stack ns = outer ++ [top] → is_Some (top !! name) →
  Namespace.add_name name ns = Raise AssertionError.
Proof.
  intros Hstack Hbound. unfold Namespace.add_name.
  rewrite Hstack, last_snoc. by rewrite bool_decide_true.
Qed.

Lemma add_names_Ok names :
  ∀ ns outer top,
    Namespace.stack ns = outer ++ [top] →
    NoDup names → (∀ n, n ∈ names → top !! n = None) →
    ∃ ns' top',
      Namespace.add_names names ns = Ok ns'
      ∧ Namespace.stack ns' = outer ++ [top']
      ∧ (∀ i n, names !! i = Some n →
                top' !! n = Some (Namespace.depth ns + 1 + Z.of_nat i))
      ∧ (∀ n, n ∉ names → top' !! n = top !! n)
      ∧ Namespace.depth ns'
        = Namespace.depth ns + Z.of_nat (length names)
      ∧ Namespace._max_depth ns'
        = match names with
          | [] => Namespace._max_depth ns
          | _ => Z.max (Namespace._max_depth ns)
                   (Namespace.depth ns + Z.of_nat (length names) - 1)
          end.
Proof.
  induction names as [|name names IH]; intros ns outer top Hstack Hnd Hfree.
  - exists ns, top. cbn. split_and!; try done. lia.
  - apply NoDup_cons in Hnd as [Hname Hnd]. cbn.
    rewrite (add_name_Ok name ns outer top) by (done || apply Hfree; left).
    set (ns1 := Namespace.mk _ _).
    assert (Namespace.depth ns1 = Namespace.depth ns + 1) as Hd1.
    { subst ns1. rewrite (depth_snoc _ _ _ (Namespace._max_depth ns)).
      rewrite map_size_insert_None by (apply Hfree; left).
      destruct ns as [stack md]. cbn in Hstack. subst stack.
      rewrite (depth_snoc _ _ _ md). unfold Namespace.depth. cbn. lia. }
    destruct (IH ns1 outer (<[name := Namespace.depth ns + 1]> top))
      as (ns' & top' & Hrun & Hstack' & Hslots & Hother & Hdepth & Hmax);
      [done|done| |].
    { intros n Hn. rewrite lookup_insert_ne by (by intros ->).
      apply Hfree. by right. }
    exists ns', top'. split_and!; [done|done| | | |].
    + intros [|i] n Hi; cbn in Hi.
      * injection Hi as ->. rewrite Hother by done.
        rewrite lookup_insert_eq. f_equal. lia.
      * rewrite (Hslots i n Hi), Hd1. f_equal. lia.
    + intros n [Hne Hn]%not_elem_of_cons. rewrite Hother by done.
      by rewrite lookup_insert_ne.
    + rewrite Hdepth, Hd1. cbn [length]. lia.
    + rewrite Hmax, Hd1. subst ns1. cbn [Namespace._max_depth length].
      destruct names; cbn [length]; lia.
Qed.

Lemma add_names_redeclared names :
  ∀ ns outer top,
    Namespace.stack ns = outer ++ [top] →
    ¬ (NoDup names ∧ Forall (λ n, top !! n = None) names) →
    Namespace.add_names names ns = Raise AssertionError.
Proof.
  induction names as [|name names IH]; intros ns outer top Hstack Hbad.
  - destruct Hbad. split; constructor.
  - cbn. destruct (top !! name) as [slot|] eqn:Hname.
    + by rewrite (add_name_redeclared name ns outer top).
    + rewrite (add_name_Ok name ns outer top) by done.
      eapply (IH _ outer); [done|]. intros [Hnd Hall]. apply Hbad.
      rewrite Forall_forall in Hall.
      assert (name ∉ names) as Hfresh.
      { intros Hin. specialize (Hall _ Hin).
        by rewrite lookup_insert_eq in Hall. }
      split; [by constructor|]. constructor; [done|].
      apply Forall_forall. intros n Hn. specialize (Hall _ Hn).
      rewrite lookup_insert_ne in Hall; [done|]. by intros ->.
Qed.






(** ** The assembler: what every built unit satisfies *)

Lemma here_insert unit u :
  Unit.here (Unit.insert unit u) = Unit.here u + Unit.here unit.
Proof. unfold Unit.here. cbn. rewrite length_app. lia. Qed.

Lemma here_add_instr k a u :
  Unit.here (Unit._add_instr k a u) = Unit.here u + 1.
Proof. unfold Unit.here. cbn. rewrite length_app. cbn. lia. Qed.

Lemma labels_wf_insert unit u :
  labels_wf unit → labels_wf u → labels_wf (Unit.insert unit u).
Proof.
  intros Hunit Hu name addr. rewrite here_insert. cbn.
  rewrite lookup_union_Some_raw, lookup_fmap.
  pose proof (Nat2Z.is_nonneg (length (Unit.instrs unit))).
  pose proof (Nat2Z.is_nonneg (length (Unit.instrs u))).
  intros [Hl|[_ Hl]].
  - destruct (Unit.labels unit !! name) as [a|] eqn:Ha; [|done].
    injection Hl as <-. apply Hunit in Ha. unfold Unit.here in *. lia.
  - apply Hu in Hl. unfold Unit.here in *. lia.
Qed.

Lemma built_invariants u :
  built u →
  jumps_wf u
  ∧ labels_wf u
  ∧ (∀ addr, is_Some (Unit.comments u !! addr) → 0 ≤ addr ≤ Unit.here u)
  ∧ (∀ addr, is_Some (Unit.inline_comments u !! addr) →
             -1 ≤ addr < Unit.here u).
Proof.
  induction 1 as [|k a u _ (Hj & Hl & Hc & Hi)|k name u Hk _ (Hj & Hl & Hc & Hi)
                  |name u _ (Hj & Hl & Hc & Hi)|c u _ (Hj & Hl & Hc & Hi)
                  |c u _ (Hj & Hl & Hc & Hi)
                  |unit u _ (Hju & Hlu & Hcu & Hiu) _ (Hj & Hl & Hc & Hi)].
  - split_and!; [done| | |].
    + intros name addr. cbn. by rewrite lookup_empty.
    + intros addr. cbn. rewrite lookup_empty. by intros [].
    + intros addr. cbn. rewrite lookup_empty. by intros [].
  - split_and!; [by apply jumps_wf_add_instr| | |].
    + intros name addr Hin. rewrite here_add_instr.
      apply Hl in Hin. lia.
    + intros addr Hin. rewrite here_add_instr. apply Hc in Hin. lia.
    + intros addr Hin. rewrite here_add_instr. apply Hi in Hin. lia.
  - split_and!; [by apply jumps_wf_deferred| | |].
    + intros n addr Hin. unfold Unit.deferred. rewrite here_add_instr.
      apply Hl in Hin. unfold Unit.here in *. cbn. lia.
    + intros addr Hin. unfold Unit.deferred. rewrite here_add_instr.
      apply Hc in Hin. unfold Unit.here in *. cbn. lia.
    + intros addr Hin. unfold Unit.deferred. rewrite here_add_instr.
      apply Hi in Hin. unfold Unit.here in *. cbn. lia.
  - split_and!; [by apply jumps_wf_label| |done|done].
    intros n addr. cbn. rewrite lookup_insert_Some.
    change (Unit.here (Unit.label name u)) with (Unit.here u).
    pose proof (Nat2Z.is_nonneg (length (Unit.instrs u))).
    intros [[_ <-]|[_ Hin]]; [unfold Unit.here; lia|by eapply Hl].
  - split_and!; [by apply jumps_wf_comment|done| |done].
    intros addr. cbn.
    change (Unit.here (Unit.comment c u)) with (Unit.here u).
    pose proof (Nat2Z.is_nonneg (length (Unit.instrs u))).
    destruct (Unit.comments u !! Unit.here u);
      rewrite lookup_insert_is_Some;
      (intros [<-|[_ Hin]]; [unfold Unit.here; lia|by apply Hc]).
  - split_and!; [by apply jumps_wf_inline_comment|done|done|].
    intros addr. cbn.
    change (Unit.here (Unit.inline_comment c u)) with (Unit.here u).
    pose proof (Nat2Z.is_nonneg (length (Unit.instrs u))).
    destruct (Unit.inline_comments u !! (Unit.here u - 1));
      rewrite lookup_insert_is_Some;
      (intros [<-|[_ Hin]]; [unfold Unit.here; lia|by apply Hi]).
  - pose proof (Nat2Z.is_nonneg (length (Unit.instrs unit))) as Hnu.
    pose proof (Nat2Z.is_nonneg (length (Unit.instrs u))) as Hn.
    fold (Unit.here unit) in Hnu. fold (Unit.here u) in Hn.
    split_and!;
      [by apply jumps_wf_insert|by apply labels_wf_insert| |].
    + intros addr. rewrite here_insert. cbn.
      rewrite lookup_union_is_Some.
      intros [Hin|Hin]; [|apply Hc in Hin; lia].
      apply lookup_kmap_is_Some in Hin as (a & -> & Hin); [|apply _].
      assert (is_Some (Unit.comments unit !! a)) as Ha.
      { unfold Unit.merge_at_seam in Hin.
        destruct (Unit.comments u !! Unit.here u); [|done].
        destruct (Unit.comments unit !! 0) eqn:H0; [|done].
        apply lookup_insert_is_Some in Hin as [<-|[_ Hin]]; [|done].
        by rewrite H0. }
      apply Hcu in Ha. lia.
    + intros addr. rewrite here_insert. cbn.
      rewrite lookup_union_is_Some.
      intros [Hin|Hin]; [|apply Hi in Hin; lia].
      apply lookup_kmap_is_Some in Hin as (a & -> & Hin); [|apply _].
      assert (is_Some (Unit.inline_comments unit !! a)) as Ha.
      { unfold Unit.merge_at_seam in Hin.
        destruct (Unit.inline_comments u !! Unit.here u); [|done].
        destruct (Unit.inline_comments unit !! 0) eqn:H0; [|done].
        apply lookup_insert_is_Some in Hin as [<-|[_ Hin]]; [|done].
        by rewrite H0. }
      apply Hiu in Ha. lia.
Qed.

Lemma unresolved_dec u : Decision (unresolved u).
Proof.
  destruct (decide (Exists (λ kv, Unit.labels u !! kv.2 = None)
                      (Unit.jumps u))) as [Hex|Hnex].
  - left. by apply unresolved_Exists.
  - right. by rewrite unresolved_Exists.
Qed.

Lemma link_objs_Ok_resolved objs u u' :
  jumps_wf u → jumps_unshared objs u → Unit.link_objs objs u = Ok u' →
  ¬ unresolved u
  ∧ u' = Unit.set_instrs
           (resolve (Unit.labels u) (Unit.jumps u) (Unit.instrs u)) u.
Proof.
  intros Hwf Hsole Hlink.
  assert (¬ unresolved u) as Hres.
  { intros Hun.
    destruct (link_objs_unresolved objs u Hwf Hsole Hun) as [name Hraise].
    by rewrite Hraise in Hlink. }
  split; [done|].
  rewrite link_objs_resolved in Hlink by done. by injection Hlink.
Qed.

Lemma link_outcome objs u :
  jumps_wf u → jumps_unshared objs u →
  match Unit.link_objs objs u with
  | Ok u' =>
      ¬ unresolved u
      ∧ u' = Unit.set_instrs
               (resolve (Unit.labels u) (Unit.jumps u) (Unit.instrs u)) u
  | Raise e =>
      ∃ addr name,
        e = unknown_label name
        ∧ (addr, name) ∈ Unit.jumps u
        ∧ Unit.labels u !! name = None
  end.
Proof.
  intros Hwf Hsole. destruct (unresolved_dec u) as [Hun|Hres].
  - destruct (link_objs_unresolved objs u Hwf Hsole Hun) as [name Hraise].
    rewrite Hraise. unfold Unit.link_objs in Hraise.
    destruct (Unit.link_loop _ _ _ _) as [p|e] eqn:Hloop; [done|].
    injection Hraise as ->.
    apply link_loop_Raise_label in Hloop as [addr [Hin Hnone]].
    by exists addr, name.
  - by rewrite link_objs_resolved.
Qed.







(** ** The assembler: how [insert] composes *)

Lemma kmap_shift_0 (off : Z) (m : gmap Z string) :
  off = 0 → kmap (λ addr, addr + off) m = m.
Proof.
  intros ->. apply map_eq. intros i.
  rewrite <- (lookup_kmap (λ addr, addr + 0) m i).
  by replace (i + 0) with i by lia.
Qed.

Lemma merge_at_seam_None sep (c : gmap Z string) :
  Unit.merge_at_seam sep None c = c.
Proof. reflexivity. Qed.

Lemma merge_at_seam_empty sep at_here :
  Unit.merge_at_seam sep at_here ∅ = ∅.
Proof. unfold Unit.merge_at_seam. rewrite lookup_empty. by destruct at_here. Qed.

Lemma unit_eq (u v : Unit.t) :
  Unit.instrs u = Unit.instrs v →
  Unit.labels u = Unit.labels v →
  Unit.jumps u = Unit.jumps v →
  Unit.comments u = Unit.comments v →
  Unit.inline_comments u = Unit.inline_comments v →
  u = v.
Proof. destruct u, v. cbn. by intros -> -> -> -> ->. Qed.





(** ** The assembler: comments across [insert] *)

Lemma lookup_kmap_shift off (m : gmap Z string) addr :
  (kmap (λ a, a + off) m : gmap Z string) !! addr = m !! (addr - off).
Proof.
  rewrite <- (lookup_kmap (λ a, a + off) m (addr - off)).
  by replace (addr - off + off) with addr by lia.
Qed.

Lemma lookup_merge_at_seam sep at_here (c : gmap Z string) addr :
  Unit.merge_at_seam sep at_here c !! addr
  = match at_here, c !! 0 with
    | Some mine, Some theirs =>
        if decide (addr = 0) then Some (mine +:+ sep +:+ theirs)
        else c !! addr
    | _, _ => c !! addr
    end.
Proof.
  unfold Unit.merge_at_seam. destruct at_here as [mine|]; [|done].
  destruct (c !! 0) as [theirs|] eqn:H0; [|done].
  destruct (decide (addr = 0)) as [->|Hne].
  - by rewrite lookup_insert_eq.
  - by rewrite lookup_insert_ne.
Qed.





Example insert_replaces_inline_comment :
  let A := Unit.new |> Unit.push 1 |> Unit.inline_comment "one" in
  let B := Unit.new |> Unit.inline_comment "before" |> Unit.push 2 in
  Unit.inline_comments A !! 0 = Some "one"
  ∧ Unit.inline_comments (Unit.insert B A) !! 0 = Some "before".
Proof. by vm_compute. Qed.

(** ** The resolver after a statement *)

Lemma leak_0 s : leak 0 0 s = s.
Proof.
  destruct s as [[st md] c]. unfold leak. cbn.
  rewrite app_nil_r. f_equal. lia.
Qed.

Lemma leak_leak n1 w1 n2 w2 s :
  leak n2 w2 (leak n1 w1 s) = leak (n1 + n2) (w1 + w2) s.
Proof.
  unfold leak. cbn. rewrite <- app_assoc, <- replicate_add.
  f_equal. lia.
Qed.

Lemma push_leak n c :
  mkGenState (Namespace.push n) c = leak 1 0 (mkGenState n c).
Proof. unfold leak, Namespace.push. cbn. f_equal. lia. Qed.

Lemma state_eta s : mkGenState (ns s) (_next_label_id s) = s.
Proof. by destruct s. Qed.

Lemma ns_pop_leak n w s : ns_pop (leak (S n) w s) = Ok (tt, leak n w s).
Proof.
  unfold ns_pop, Namespace.pop, leak. cbn [ns _next_label_id Namespace.stack
    Namespace._max_depth].
  replace (S n) with (n + 1)%nat by lia.
  rewrite replicate_add, app_assoc. cbn [replicate].
  rewrite removelast_last.
  by destruct (Namespace.stack (ns s) ++ replicate n ∅).
Qed.

Lemma get_leak name n w s :
  Namespace.get name (ns (leak n w s)) = Namespace.get name (ns s).
Proof.
  unfold Namespace.get, leak. cbn [ns Namespace.stack].
  rewrite reverse_app, reverse_replicate.
  induction n as [|n IH]; [done|]. cbn. by rewrite lookup_empty.
Qed.

Lemma depth_leak n w s :
  Namespace.depth (ns (leak n w s)) = Namespace.depth (ns s).
Proof.
  unfold Namespace.depth, leak. cbn [ns Namespace.stack].
  rewrite foldr_app.
  assert (foldr (λ (fr : gmap string Z) acc, Z.of_nat (size fr) + acc) 0
            (replicate n ∅) = 0) as ->; [|done].
  induction n as [|n IH]; [done|]. cbn. rewrite IH. done.
Qed.

Lemma bound_in_leak name n w s :
  bound_in (ns (leak n w s)) name = bound_in (ns s) name.
Proof. unfold bound_in. by rewrite get_leak. Qed.

Lemma gen_each_state children :
  Forall (λ x, ∀ s u s', gen_stmt x s = Ok (u, s') →
                          s' = leak (stmt_count x) (while_count x) s)
    children →
  ∀ s us s', gen_each gen_stmt children s = Ok (us, s') →
             s' = leak (sum_list_with stmt_count children)
                    (sum_list_with while_count children) s.
Proof.
  induction 1 as [|x l Hx _ IH]; intros s us s' Hrun; cbn in Hrun.
  - apply gen_ret_Ok in Hrun as [= -> ->]. by rewrite leak_0.
  - gen_step Hrun. gen_step Hrun. apply gen_ret_Ok in Hrun as [= -> ->].
    apply Hx in Hm as ->. apply IH in Hm0 as ->.
    by rewrite leak_leak.
Qed.

(** A statement leaves one empty frame per statement node and mints three
    labels per loop. *)
Lemma gen_stmt_state stmt :
  ∀ s u s', gen_stmt stmt s = Ok (u, s') →
            s' = leak (stmt_count stmt) (while_count stmt) s.
Proof.
  induction stmt as [children IH|child|name arg_names stmt _|guard body IH
                     |child|[name expr]] using Stmt_ind;
    intros s u s' Hrun.
  - cbn in Hrun.
    gen_step Hrun. gen_step Hrun. apply gen_ret_Ok in Hrun as [= -> ->].
    apply (gen_each_state _ IH) in Hm.
    rewrite !push_leak, state_eta, leak_leak in Hm. subst s0.
    rewrite leak_leak in Hm0.
    replace (1 + 1 + sum_list_with stmt_count children)%nat
      with (S (S (sum_list_with stmt_count children))) in Hm0 by lia.
    rewrite ns_pop_leak in Hm0. by simplify_eq.
  - cbn in Hrun. gen_step Hrun.
    apply gen_ret_Ok in Hrun as [= -> ->].
    apply gen_expr_inv in Hm as (-> & _).
    by rewrite push_leak, state_eta.
  - by rewrite gen_stmt_fn_def in Hrun.
  - cbn in Hrun.
    gen_step Hrun. apply gen_expr_inv in Hm as (-> & _).
    gen_step Hrun. rewrite ns_pop_push in Hm. simplify_eq.
    gen_step Hrun. apply ns_push_Ok in Hm. simplify_eq.
    gen_step Hrun. apply IH in Hm. subst s0.
    gen_step Hrun. cbn [ns _next_label_id] in Hm.
    rewrite !push_leak, state_eta, !leak_leak in Hm.
    replace (1 + 1 + stmt_count body)%nat with (S (S (stmt_count body)))
      in Hm by lia.
    rewrite ns_pop_leak in Hm. simplify_eq.
    gen_step Hrun. apply new_label_Ok in Hm as [= -> ->].
    gen_step Hrun. apply new_label_Ok in Hm as [= -> ->].
    gen_step Hrun. apply new_label_Ok in Hm as [= -> ->].
    apply gen_ret_Ok in Hrun as [= -> ->].
    unfold leak. cbn. f_equal. lia.
  - by rewrite gen_stmt_var_decl in Hrun.
  - cbn in Hrun.
    gen_step Hrun. apply gen_expr_inv in Hm as (-> & _).
    gen_step Hrun. rewrite ns_pop_push in Hm. simplify_eq.
    gen_step Hrun. apply ns_get_Ok in Hm as [slot [= -> ->]].
    apply gen_ret_Ok in Hrun as [= -> ->].
    by rewrite push_leak, state_eta.
Qed.



(** ** The first exception of a generation *)

Lemma bound_in_push n name :
  bound_in (Namespace.push n) name = bound_in n name.
Proof.
  unfold bound_in, Namespace.get, Namespace.push. cbn [Namespace.stack].
  rewrite reverse_snoc. cbn. by rewrite lookup_empty.
Qed.

Lemma ns_get_bound name s :
  ns_get name s
  = if bound_in (ns s) name
    then ns_get name s
    else Raise (unknown_identifier name).
Proof.
  unfold bound_in, ns_get.
  destruct (Namespace.get name (ns s)) as [slot|e] eqn:Hget; [done|].
  by apply get_from_Raise in Hget as [-> _].
Qed.

Lemma ns_get_is_Ok name s :
  bound_in (ns s) name = true → ∃ slot, ns_get name s = Ok (slot, s).
Proof.
  unfold bound_in, ns_get.
  destruct (Namespace.get name (ns s)) as [slot|e]; [by eexists|done].
Qed.

(** The comprehension stops at the first element that raises. *)
Lemma gen_each_first_error {A B} (f : A → M B) (err : A → option exn)
    (I : GenState → Prop) (l : list A) :
  Forall (λ x, ∀ s, I s →
               match f x s with
               | Ok (_, s') => err x = None ∧ I s'
               | Raise e => err x = Some e
               end) l →
  ∀ s, I s →
       match gen_each f l s with
       | Ok (_, s') => first_error err l = None ∧ I s'
       | Raise e => first_error err l = Some e
       end.
Proof.
  induction 1 as [|x l Hx _ IH]; intros s Hs; cbn [gen_each first_error].
  { unfold gen_ret. by split. }
  unfold gen_bind at 1. specialize (Hx s Hs).
  destruct (f x s) as [[y s1]|e]; [|by rewrite Hx].
  destruct Hx as [-> Hs1].
  unfold gen_bind at 1. specialize (IH s1 Hs1).
  by destruct (gen_each f l s1) as [[ys s2]|e].
Qed.

Lemma gen_expr_first_error bound e :
  ∀ s, (∀ name, bound_in (ns s) name = bound name) →
       match gen_expr e s with
       | Ok (_, s') => expr_error bound e = None ∧ s' = s
       | Raise x => expr_error bound e = Some x
       end.
Proof.
  induction e as [[[v]]|[name]|name args IH] using Expr_ind; intros s Hs.
  - done.
  - cbn. unfold gen_var, gen_bind. cbn [var_name].
    rewrite ns_get_bound, Hs.
    destruct (bound name) eqn:Hb; [|done].
    rewrite <- Hs in Hb. apply ns_get_is_Ok in Hb as [slot ->]. done.
  - cbn. unfold gen_fn_call, gen_bind. cbn [ns_push].
    set (s1 := mkGenState (Namespace.push (ns s)) (_next_label_id s)).
    assert (match gen_each gen_expr args s1 with
            | Ok (_, s') => first_error (expr_error bound) args = None
                            ∧ s' = s1
            | Raise x => first_error (expr_error bound) args = Some x
            end) as Hargs.
    { apply (gen_each_first_error gen_expr (expr_error bound)
               (λ s', s' = s1)); [|done].
      eapply Forall_impl; [exact IH|]. cbn. intros arg Harg s' ->.
      apply Harg. intros name'. unfold s1. cbn [ns].
      by rewrite bound_in_push. }
    destruct (gen_each gen_expr args s1) as [[units s2]|x]; [|done].
    destruct Hargs as [Herr ->]. unfold s1.
    rewrite ns_pop_push. cbn. split; [done|by destruct s].
Qed.

Lemma gen_stmt_first_error bound stmt :
  ∀ s, (∀ name, bound_in (ns s) name = bound name) →
       match gen_stmt stmt s with
       | Ok _ => stmt_error bound stmt = None
       | Raise x => stmt_error bound stmt = Some x
       end.
Proof.
  induction stmt as [children IH|child|name arg_names stmt _|guard body IH
                     |child|[name expr]] using Stmt_ind;
    intros s Hs.
  - cbn. unfold gen_block, gen_bind. cbn [ns_push ns _next_label_id].
    rewrite !push_leak, state_eta, leak_leak.
    change (leak (1 + 1) (0 + 0) s) with (leak 2 0 s).
    assert (match gen_each gen_stmt children (leak 2 0 s) with
            | Ok (_, s') => first_error (stmt_error bound) children = None
                            ∧ ∃ n w, s' = leak (S (S n)) w s
            | Raise x => first_error (stmt_error bound) children = Some x
            end) as Hch.
    { apply (gen_each_first_error gen_stmt (stmt_error bound)
               (λ s', ∃ n w, s' = leak (S (S n)) w s));
        [|by exists 0%nat, 0%nat].
      eapply Forall_impl; [exact IH|]. cbn. intros x Hx s' (n & w & ->).
      specialize (Hx (leak (S (S n)) w s)).
      destruct (gen_stmt x (leak (S (S n)) w s)) as [[u s2]|e] eqn:Hrun.
      - split; [apply Hx; intros; by rewrite bound_in_leak|].
        apply gen_stmt_state in Hrun as ->. rewrite leak_leak.
        exists (n + stmt_count x)%nat, (w + while_count x)%nat.
        f_equal; lia.
      - apply Hx. intros. by rewrite bound_in_leak. }
    destruct (gen_each gen_stmt children (leak 2 0 s)) as [[units s2]|x];
      [|done].
    destruct Hch as (Herr & n & w & ->). cbn [Nat.add].
    by rewrite ns_pop_leak.
  - cbn. unfold gen_bind. cbn [ns_push].
    pose proof (gen_expr_first_error bound child
                  (mkGenState (Namespace.push (ns s)) (_next_label_id s)))
      as He.
    destruct (gen_expr child _) as [[u s1]|x].
    + apply He. intros. cbn [ns]. by rewrite bound_in_push.
    + apply He. intros. cbn [ns]. by rewrite bound_in_push.
  - by rewrite gen_stmt_fn_def.
  - cbn. unfold gen_while_loop, gen_bind. cbn [ns_push ns _next_label_id].
    pose proof (gen_expr_first_error bound guard
                  (mkGenState (Namespace.push (Namespace.push (ns s)))
                     (_next_label_id s))) as He.
    destruct (gen_expr guard _) as [[g s1]|x].
    2:{ rewrite He; [done|]. intros. cbn [ns]. by rewrite !bound_in_push. }
    destruct He as [-> ->].
    { intros. cbn [ns]. by rewrite !bound_in_push. }
    rewrite ns_pop_push. cbn [ns _next_label_id].
    rewrite !push_leak, state_eta, leak_leak.
    change (leak (1 + 1) (0 + 0) s) with (leak 2 0 s).
    specialize (IH (leak 2 0 s)).
    destruct (gen_stmt body (leak 2 0 s)) as [[b s2]|x] eqn:Hrun.
    2:{ apply IH. intros. by rewrite bound_in_leak. }
    rewrite IH by (intros; by rewrite bound_in_leak).
    apply gen_stmt_state in Hrun as ->. rewrite leak_leak.
    cbn [Nat.add]. by rewrite ns_pop_leak.
  - by rewrite gen_stmt_var_decl.
  - cbn. unfold gen_assign, gen_bind.
    cbn [ns_push ns _next_label_id assign_expr assign_name].
    pose proof (gen_expr_first_error bound expr
                  (mkGenState (Namespace.push (Namespace.push (ns s)))
                     (_next_label_id s))) as He.
    destruct (gen_expr expr _) as [[u s1]|x].
    2:{ rewrite He; [done|]. intros. cbn [ns]. by rewrite !bound_in_push. }
    destruct He as [-> ->].
    { intros. cbn [ns]. by rewrite !bound_in_push. }
    rewrite ns_pop_push.
    rewrite ns_get_bound. cbn [ns]. rewrite bound_in_push, Hs.
    destruct (bound name) eqn:Hb; [|done].
    destruct (ns_get_is_Ok name
                (mkGenState (Namespace.push (ns s)) (_next_label_id s)))
      as [slot ->]; [|done].
    cbn [ns]. by rewrite bound_in_push, Hs.
Qed.



Example gen_outcome_assign :
  gen (Stmt_Block [Stmt_Assign (mkAssign "x" (Expr_Var (mkVar "y")));
                   Stmt_VarDecl (mkVarDecl "z")]) (-1)
  = Raise (GenError "Unknown identifier: y").
Proof. reflexivity. Qed.

(** ** Generated units are built units *)

Lemma built_load_tos offset u : built u → built (Unit.load_tos offset u).
Proof.
  intros Hu. unfold Unit.load_tos, Unit.load_tos_ptr.
  destruct (decide (offset = 0));
    apply built_inline_comment; repeat apply built_add_instr; done.
Qed.

Lemma built_store_tos offset u : built u → built (Unit.store_tos offset u).
Proof.
  intros Hu. unfold Unit.store_tos, Unit.load_tos_ptr.
  destruct (decide (offset = 0));
    apply built_inline_comment; repeat apply built_add_instr; done.
Qed.

Lemma built_reduce_insert units init :
  Forall built units → built init → built (reduce_insert units init).
Proof.
  unfold reduce_insert. intros Hall. revert init.
  induction Hall as [|u units Hu _ IH]; intros init Hinit; cbn; [done|].
  apply IH. by apply built_insert.
Qed.

Ltac built_step :=
  lazymatch goal with
  | |- built Unit.new => apply built_new
  | |- built (Unit.comment _ _) => apply built_comment
  | |- built (Unit.inline_comment _ _) => apply built_inline_comment
  | |- built (Unit.label _ _) => apply built_label
  | |- built (Unit.load_tos _ _) => apply built_load_tos
  | |- built (Unit.store_tos _ _) => apply built_store_tos
  | |- built (Unit.insert _ _) => apply built_insert
  | |- built (Unit.deferred _ _ _) => apply built_deferred; [reflexivity|]
  | |- built (Unit.call _ _) => apply built_deferred; [reflexivity|]
  | |- built (Unit.jmp _ _) => apply built_deferred; [reflexivity|]
  | |- built (Unit.jmp_t _ _) => apply built_deferred; [reflexivity|]
  | |- built (Unit._add_instr _ _ _) => apply built_add_instr
  | |- built (Unit.push _ _) => apply built_add_instr
  | |- built (Unit.add _) => apply built_add_instr
  | |- built (Unit.sub _) => apply built_add_instr
  | |- built (Unit.shl _) => apply built_add_instr
  | |- built (Unit.print _) => apply built_add_instr
  | |- built (Unit.store _) => apply built_add_instr
  | |- built (Unit.rot _) => apply built_add_instr
  | |- built (Unit.ret _) => apply built_add_instr
  | |- built (Unit.pop _) => apply built_add_instr
  | |- built (Unit.halt _) => apply built_add_instr
  | |- built _ => assumption
  end.

Lemma built_fresh : built Unit.fresh.
Proof. unfold Unit.fresh. repeat built_step. Qed.

Lemma built_intrinsics u : built u → built (Unit.intrinsics u).
Proof.
  intros Hu. unfold Unit.intrinsics.
  cbn [foldl Unit.binary_ops Unit.unary_ops].
  repeat built_step.
Qed.

Lemma built_assemble body : built body → built (assemble body).
Proof.
  intros Hb. unfold assemble. apply built_intrinsics.
  unfold Unit.halt. apply built_add_instr, built_insert; [done|].
  apply built_fresh.
Qed.

Lemma gen_expr_built e :
  ∀ s u s', gen_expr e s = Ok (u, s') → built u.
Proof.
  induction e as [[[v]]|[name]|name args IH] using Expr_ind;
    intros s u s' Hrun; cbn in Hrun.
  - apply gen_ret_Ok in Hrun as [= -> ->]. repeat built_step.
  - unfold gen_var in Hrun. gen_step Hrun.
    apply gen_ret_Ok in Hrun as [= -> ->]. repeat built_step.
  - unfold gen_fn_call in Hrun. gen_step Hrun. gen_step Hrun.
    apply gen_ret_Ok in Hrun as [= -> ->].
    apply (gen_each_invariant gen_expr (λ _ _, True) (λ _ _ u, built u))
      in Hm as [_ Hargs]; [|done..|].
    2:{ eapply Forall_impl; [exact IH|]. cbn. intros x Hx sx y sx' Hy.
        split; [done|]. by eapply Hx. }
    apply built_comment, built_inline_comment.
    apply built_deferred; [done|].
    apply built_reduce_insert; [|repeat built_step].
    apply Forall_forall. intros u (i & arg & -> & Hi)%elem_of_lookup_imap.
    rewrite Forall_forall in Hargs.
    apply built_store_tos, built_insert; [|apply built_new].
    apply Hargs. by eapply list_elem_of_lookup_2.
Qed.

Lemma gen_stmt_built stmt :
  ∀ s u s', gen_stmt stmt s = Ok (u, s') → built u.
Proof.
  induction stmt as [children IH|child|name arg_names stmt _|guard body IH
                     |child|[name expr]] using Stmt_ind;
    intros s u s' Hrun.
  - cbn in Hrun.
    gen_step Hrun. gen_step Hrun. apply gen_ret_Ok in Hrun as [= -> ->].
    apply (gen_each_invariant gen_stmt (λ _ _, True) (λ _ _ u, built u))
      in Hm as [_ Hunits]; [|done..|].
    2:{ eapply Forall_impl; [exact IH|]. cbn. intros x Hx sx y sx' Hy.
        split; [done|]. by eapply Hx. }
    apply built_reduce_insert; [done|apply built_new].
  - cbn in Hrun. gen_step Hrun.
    apply gen_ret_Ok in Hrun as [= -> ->].
    apply gen_expr_built in Hm. unfold Unit.pop. by apply built_add_instr.
  - by rewrite gen_stmt_fn_def in Hrun.
  - cbn in Hrun.
    gen_step Hrun. apply gen_expr_built in Hm.
    gen_step Hrun. gen_step Hrun. gen_step Hrun. apply IH in Hm2.
    gen_step Hrun. gen_step Hrun. gen_step Hrun. gen_step Hrun.
    apply gen_ret_Ok in Hrun as [= -> ->].
    repeat built_step.
  - by rewrite gen_stmt_var_decl in Hrun.
  - cbn in Hrun.
    gen_step Hrun. apply gen_expr_built in Hm.
    gen_step Hrun. gen_step Hrun.
    apply gen_ret_Ok in Hrun as [= -> ->]. repeat built_step.
Qed.



(** ** The layout of calls and blocks *)

Lemma instrs_reduce_insert units init :
  Unit.instrs (reduce_insert units init)
  = Unit.instrs init ++ concat (Unit.instrs <$> units).
Proof.
  unfold reduce_insert. revert init.
  induction units as [|u units IH]; intros init; cbn.
  - by rewrite app_nil_r.
  - rewrite IH, instrs_insert. by rewrite <- app_assoc.
Qed.

Lemma jump_names_insert unit self :
  jumps_wf unit → jumps_wf self →
  (Unit.jumps (Unit.insert unit self)).*2
  = (Unit.jumps self).*2 ++ (Unit.jumps unit).*2.
Proof.
  intros Hu Hs. rewrite jumps_insert, fmap_app by done. f_equal.
  rewrite <- list_fmap_compose. apply list_fmap_ext. by intros i [addr name].
Qed.

Lemma jump_names_reduce_insert units init :
  Forall (λ u, jumps_wf u) units → jumps_wf init →
  (Unit.jumps (reduce_insert units init)).*2
  = (Unit.jumps init).*2 ++ concat ((λ u, (Unit.jumps u).*2) <$> units).
Proof.
  unfold reduce_insert. intros Hall. revert init.
  induction Hall as [|u units Hu _ IH]; intros init Hinit; cbn.
  - by rewrite app_nil_r.
  - rewrite IH by by apply jumps_wf_insert.
    rewrite jump_names_insert by done. by rewrite <- app_assoc.
Qed.

Lemma instrs_store_tos i u :
  Unit.instrs (Unit.store_tos i u) = Unit.instrs u ++ store_slot i.
Proof.
  unfold Unit.store_tos, Unit.load_tos_ptr, store_slot.
  destruct (decide (i = 0)); unfold_emitters;
    rewrite instrs_inline_comment, !instrs_add_instr, <- !app_assoc; done.
Qed.

Lemma jumps_store_tos i u :
  Unit.jumps (Unit.store_tos i u) = Unit.jumps u.
Proof.
  unfold Unit.store_tos, Unit.load_tos_ptr. by destruct (decide (i = 0)).
Qed.

(** A comprehension whose element generator leaves the state alone runs
    every element in the state it started in. *)
Lemma gen_each_same_state {A B} (f : A → M B) (l : list A) :
  Forall (λ x, ∀ s y s', f x s = Ok (y, s') → s' = s) l →
  ∀ s ys s', gen_each f l s = Ok (ys, s') →
             s' = s ∧ Forall2 (λ x y, f x s = Ok (y, s)) l ys.
Proof.
  induction 1 as [|x l Hx _ IH]; intros s ys s' Hrun; cbn in Hrun.
  - apply gen_ret_Ok in Hrun as [= -> ->]. by split.
  - gen_step Hrun. gen_step Hrun. apply gen_ret_Ok in Hrun as [= -> ->].
    pose proof (Hx _ _ _ Hm) as ->. apply IH in Hm0 as [-> Hall].
    split; [done|]. by constructor.
Qed.

Lemma gen_fn_call_units name args s u s' :
  gen_expr (Expr_FnCall name args) s = Ok (u, s') →
  ∃ units,
    Forall2 (λ arg unit,
               gen_expr arg
                 (mkGenState (Namespace.push (ns s)) (_next_label_id s))
               = Ok (unit,
                     mkGenState (Namespace.push (ns s)) (_next_label_id s)))
      args units
    ∧ Unit.instrs u
      = concat (imap (λ i unit,
                        Unit.instrs unit ++ store_slot (Z.of_nat i)) units)
        ++ [mkInstr InstrKind.Call (Some _DUMMY_ADDR)]
    ∧ (Unit.jumps u).*2
      = concat ((λ unit, (Unit.jumps unit).*2) <$> units) ++ [name]
    ∧ s' = s.
Proof.
  intros Hrun. cbn in Hrun. unfold gen_fn_call in Hrun.
  gen_step Hrun.
  apply gen_each_same_state in Hm as [-> Hunits].
  2:{ apply Forall_forall. intros x _ sx y sx' Hy.
      by apply gen_expr_inv in Hy as (-> & _). }
  gen_step Hrun. rewrite ns_pop_push in Hm. simplify_eq.
  apply gen_ret_Ok in Hrun as [= -> ->].
  exists a. split; [done|].
  assert (Forall (λ u, jumps_wf u) a) as Hwf.
  { apply Forall_forall. intros unit Hin.
    apply list_elem_of_lookup_1 in Hin as [i Hi].
    destruct (Forall2_lookup_r _ _ _ _ _ Hunits Hi) as (arg & _ & Harg).
    by apply gen_expr_inv in Harg as (_ & _ & ?). }
  set (args_pushed := imap _ a).
  assert (Forall (λ u, jumps_wf u) args_pushed) as Hpushed.
  { apply Forall_forall. intros u (i & arg & -> & Hi)%elem_of_lookup_imap.
    rewrite Forall_forall in Hwf.
    apply jumps_wf_store_tos, jumps_wf_insert; [|done].
    apply Hwf. by eapply list_elem_of_lookup_2. }
  split_and!.
  - rewrite instrs_comment, instrs_inline_comment.
    unfold Unit.call. rewrite instrs_deferred, instrs_reduce_insert.
    cbn [Unit.instrs Unit.comment Unit.set_comments Unit.new app].
    f_equal. unfold args_pushed. rewrite fmap_imap. f_equal.
    apply imap_ext. intros i unit _. unfold compose.
    by rewrite instrs_store_tos, instrs_insert.
  - change (Unit.jumps (Unit.comment _ (Unit.inline_comment _ ?v)))
      with (Unit.jumps v).
    unfold Unit.call. rewrite jumps_deferred, fmap_app.
    2:{ apply jumps_wf_reduce_insert; [done|]. eauto with unit_wf. }
    rewrite jump_names_reduce_insert; [|done|eauto with unit_wf].
    cbn [Unit.jumps Unit.comment Unit.set_comments Unit.new app fmap
         list_fmap snd].
    f_equal. unfold args_pushed. rewrite fmap_imap, <- imap_const.
    f_equal. apply imap_ext. intros i unit Hi. unfold compose, const.
    rewrite jumps_store_tos, jump_names_insert; [done| |done].
    rewrite Forall_forall in Hwf. apply Hwf.
    by eapply list_elem_of_lookup_2.
  - by destruct s.
Qed.

Lemma gen_expr_jump_names e :
  ∀ s u s', gen_expr e s = Ok (u, s') → (Unit.jumps u).*2 = expr_calls e.
Proof.
  induction e as [[[v]]|[name]|name args IH] using Expr_ind;
    intros s u s' Hrun.
  - cbn in Hrun. by apply gen_ret_Ok in Hrun as [= -> ->].
  - cbn in Hrun. unfold gen_var in Hrun. gen_step Hrun.
    apply gen_ret_Ok in Hrun as [= -> ->].
    change (Unit.jumps (Unit.inline_comment _ ?v)) with (Unit.jumps v).
    unfold Unit.load_tos, Unit.load_tos_ptr. by destruct (decide (a = 0)).
  - apply gen_fn_call_units in Hrun as (units & Hunits & _ & -> & _).
    cbn [expr_calls]. f_equal. f_equal.
    induction Hunits as [|arg unit args units Harg _ IHu]; [done|].
    apply Forall_cons in IH as [IHarg IH]. cbn. f_equal; [|by apply IHu].
    by eapply IHarg.
Qed.



Example gen_fn_call_two_arguments :
  match gen_expr (Expr_FnCall "f" [Expr_Lit (Lit_Int (mkInt 7));
                                   Expr_Lit (Lit_Int (mkInt 9))])
          (mkGenState Namespace.new (-1)) with
  | Ok (u, _) =>
      Unit.instrs u
      = [mkInstr InstrKind.Push (Some 7);
         mkInstr InstrKind.Push (Some 0); mkInstr InstrKind.Load None;
         mkInstr InstrKind.Store None;
         mkInstr InstrKind.Push (Some 9);
         mkInstr InstrKind.Push (Some 0); mkInstr InstrKind.Load None;
         mkInstr InstrKind.Push (Some 1); mkInstr InstrKind.Sub None;
         mkInstr InstrKind.Store None;
         mkInstr InstrKind.Call (Some _DUMMY_ADDR)]
  | Raise _ => False
  end.
Proof. by vm_compute. Qed.

(** ** Which labels a statement's unit leaves to others *)

Lemma closed_weaken L L' u : L ⊆ L' → closed L u → closed L' u.
Proof.
  intros Hsub [Hwf Hcl]. split; [done|]. intros name Hin.
  destruct (Hcl name Hin) as [?|?]; [left; by apply Hsub|by right].
Qed.

Lemma closed_new L : closed L Unit.new.
Proof. split; [done|]. intros name Hin. by apply elem_of_nil in Hin. Qed.

Lemma closed_add_instr L k a u : closed L u → closed L (Unit._add_instr k a u).
Proof. intros [Hwf Hcl]. split; [by apply jumps_wf_add_instr|done]. Qed.

Lemma closed_comment L c u : closed L u → closed L (Unit.comment c u).
Proof. intros [Hwf Hcl]. split; [by apply jumps_wf_comment|done]. Qed.

Lemma closed_inline_comment L c u :
  closed L u → closed L (Unit.inline_comment c u).
Proof. intros [Hwf Hcl]. split; [by apply jumps_wf_inline_comment|done]. Qed.

Lemma closed_label L name u : closed L u → closed L (Unit.label name u).
Proof.
  intros [Hwf Hcl]. split; [by apply jumps_wf_label|].
  intros name' Hin. destruct (Hcl name' Hin) as [?|Hsome]; [by left|right].
  rewrite labels_label. destruct (decide (name = name')) as [->|Hne].
  - by rewrite lookup_insert_eq.
  - by rewrite lookup_insert_ne.
Qed.

Lemma closed_deferred L k name u :
  Unit.is_jump_kind k = true →
  name ∈ L ∨ is_Some (Unit.labels u !! name) →
  closed L u → closed L (Unit.deferred k name u).
Proof.
  intros Hk Hname [Hwf Hcl]. split; [by apply jumps_wf_deferred|].
  rewrite jumps_deferred, fmap_app by done. cbn.
  intros name' [Hin| ->%list_elem_of_singleton]%elem_of_app; [|done].
  by apply Hcl.
Qed.

Lemma closed_insert L unit self :
  closed L unit → closed L self → closed L (Unit.insert unit self).
Proof.
  intros [Hwfu Hclu] [Hwfs Hcls]. split; [by apply jumps_wf_insert|].
  intros name Hin. rewrite jump_names_insert in Hin by done.
  rewrite labels_insert_is_Some.
  apply elem_of_app in Hin as [Hin|Hin].
  - destruct (Hcls name Hin); auto.
  - destruct (Hclu name Hin); auto.
Qed.

Lemma closed_store_tos L i u : closed L u → closed L (Unit.store_tos i u).
Proof.
  intros Hu. unfold Unit.store_tos, Unit.load_tos_ptr.
  destruct (decide (i = 0));
    apply closed_inline_comment; repeat apply closed_add_instr; done.
Qed.

Lemma closed_load_tos L i u : closed L u → closed L (Unit.load_tos i u).
Proof.
  intros Hu. unfold Unit.load_tos, Unit.load_tos_ptr.
  destruct (decide (i = 0));
    apply closed_inline_comment; repeat apply closed_add_instr; done.
Qed.

Lemma closed_reduce_insert L units init :
  Forall (closed L) units → closed L init →
  closed L (reduce_insert units init).
Proof.
  unfold reduce_insert. intros Hall. revert init.
  induction Hall as [|u units Hu _ IH]; intros init Hinit; cbn; [done|].
  apply IH. by apply closed_insert.
Qed.

(** A name that has become a label need not be listed any more. *)
Lemma closed_discharge L name u :
  is_Some (Unit.labels u !! name) → closed (name :: L) u → closed L u.
Proof.
  intros Hsome [Hwf Hcl]. split; [done|]. intros name' Hin.
  destruct (Hcl name' Hin) as [[->|?]%elem_of_cons|?]; auto.
Qed.

Lemma gen_each_Forall2 {A B} (f : A → M B) (Q : A → B → Prop) (l : list A) :
  Forall (λ x, ∀ s y s', f x s = Ok (y, s') → Q x y) l →
  ∀ s ys s', gen_each f l s = Ok (ys, s') → Forall2 Q l ys.
Proof.
  induction 1 as [|x l Hx _ IH]; intros s ys s' Hrun; cbn in Hrun.
  - apply gen_ret_Ok in Hrun as [= -> ->]. constructor.
  - gen_step Hrun. gen_step Hrun. apply gen_ret_Ok in Hrun as [= -> ->].
    constructor; [by eapply Hx|by eapply IH].
Qed.

Lemma concat_fmap_subseteq {A} (f : A → list string) (x : A) (l : list A) :
  x ∈ l → f x ⊆ concat (f <$> l).
Proof.
  intros Hx name Hin.
  induction l as [|y l IH]; [by apply elem_of_nil in Hx|].
  cbn. apply elem_of_app.
  apply elem_of_cons in Hx as [->|Hx]; [by left|right; by apply IH].
Qed.

Lemma gen_expr_closed e :
  ∀ s u s', gen_expr e s = Ok (u, s') → closed (expr_calls e) u.
Proof.
  induction e as [[[v]]|[name]|name args IH] using Expr_ind;
    intros s u s' Hrun; cbn in Hrun.
  - apply gen_ret_Ok in Hrun as [= -> ->].
    apply closed_inline_comment, closed_add_instr, closed_new.
  - unfold gen_var in Hrun. gen_step Hrun.
    apply gen_ret_Ok in Hrun as [= -> ->].
    apply closed_inline_comment, closed_load_tos, closed_new.
  - unfold gen_fn_call in Hrun. gen_step Hrun. gen_step Hrun.
    apply gen_ret_Ok in Hrun as [= -> ->].
    apply (gen_each_Forall2 gen_expr (λ arg u, closed (expr_calls arg) u))
      in Hm.
    2:{ eapply Forall_impl; [exact IH|]. cbn. intros x Hx sx y sx' Hy.
        by eapply Hx. }
    apply closed_comment, closed_inline_comment.
    apply closed_deferred; [done|left; cbn; set_solver|].
    apply closed_reduce_insert; [|apply closed_comment, closed_new].
    apply Forall_forall. intros u (i & unit & -> & Hi)%elem_of_lookup_imap.
    apply closed_store_tos, closed_insert; [|apply closed_new].
    destruct (Forall2_lookup_r _ _ _ _ _ Hm Hi) as (arg & Harg & Hcl).
    eapply closed_weaken; [|exact Hcl]. cbn.
    intros name' Hin. apply elem_of_app. left.
    eapply (concat_fmap_subseteq expr_calls arg); [|done].
    by eapply list_elem_of_lookup_2.
Qed.

Lemma labels_label_is_Some name u :
  is_Some (Unit.labels (Unit.label name u) !! name).
Proof. rewrite labels_label, lookup_insert_eq. by eexists. Qed.

Lemma labels_label_mono name name' u :
  is_Some (Unit.labels u !! name) →
  is_Some (Unit.labels (Unit.label name' u) !! name).
Proof.
  intros Hsome. rewrite labels_label.
  destruct (decide (name' = name)) as [->|Hne].
  - by rewrite lookup_insert_eq.
  - by rewrite lookup_insert_ne.
Qed.

Lemma labels_insert_mono name unit u :
  is_Some (Unit.labels u !! name) →
  is_Some (Unit.labels (Unit.insert unit u) !! name).
Proof. intros Hsome. apply labels_insert_is_Some. by right. Qed.

Lemma gen_stmt_closed stmt :
  ∀ s u s', gen_stmt stmt s = Ok (u, s') → closed (stmt_calls stmt) u.
Proof.
  induction stmt as [children IH|child|name arg_names stmt _|guard body IH
                     |child|[name expr]] using Stmt_ind;
    intros s u s' Hrun.
  - cbn in Hrun.
    gen_step Hrun. gen_step Hrun. apply gen_ret_Ok in Hrun as [= -> ->].
    apply (gen_each_Forall2 gen_stmt (λ x u, closed (stmt_calls x) u))
      in Hm.
    2:{ eapply Forall_impl; [exact IH|]. cbn. intros x Hx sx y sx' Hy.
        by eapply Hx. }
    apply closed_reduce_insert; [|apply closed_new].
    apply Forall_forall. intros unit Hin.
    apply list_elem_of_lookup_1 in Hin as [i Hi].
    destruct (Forall2_lookup_r _ _ _ _ _ Hm Hi) as (x & Hx & Hcl).
    eapply closed_weaken; [|exact Hcl]. cbn.
    apply concat_fmap_subseteq. by eapply list_elem_of_lookup_2.
  - cbn in Hrun. gen_step Hrun.
    apply gen_ret_Ok in Hrun as [= -> ->].
    apply gen_expr_closed in Hm. by apply closed_add_instr.
  - by rewrite gen_stmt_fn_def in Hrun.
  - cbn in Hrun.
    gen_step Hrun. apply gen_expr_closed in Hm.
    gen_step Hrun. gen_step Hrun. gen_step Hrun. apply IH in Hm2.
    gen_step Hrun. gen_step Hrun. gen_step Hrun. gen_step Hrun.
    apply gen_ret_Ok in Hrun as [= -> ->].
    cbn [stmt_calls].
    set (L := stmt_calls body ++ expr_calls guard).
    assert (closed L a) as Hg.
    { eapply closed_weaken; [|exact Hm]. unfold L. set_solver. }
    assert (closed L a2) as Hb.
    { eapply closed_weaken; [|exact Hm2]. unfold L. set_solver. }
    apply closed_comment, closed_label, closed_comment.
    apply (closed_discharge _ a5).
    { change (is_Some (Unit.labels (Unit.jmp_t a4 ?v) !! a5))
        with (is_Some (Unit.labels v !! a5)).
      apply labels_insert_mono, labels_label_is_Some. }
    apply closed_deferred; [done| |].
    { right. apply labels_insert_mono, labels_label_mono.
      change (Unit.labels (Unit.comment _ (Unit.comment _ ?v)))
        with (Unit.labels v).
      apply labels_insert_mono.
      change (Unit.labels (Unit.comment _ ?v)) with (Unit.labels v).
      apply labels_label_is_Some. }
    assert (L ⊆ a5 :: L) as Hsub by (intros x Hx; apply elem_of_cons; by right).
    apply closed_insert; [by eapply closed_weaken|].
    apply closed_label, closed_comment, closed_comment, closed_insert;
      [by eapply closed_weaken|].
    apply closed_comment, closed_label.
    apply closed_deferred; [done|left; set_solver|].
    apply closed_comment, closed_new.
  - by rewrite gen_stmt_var_decl in Hrun.
  - cbn in Hrun.
    gen_step Hrun. apply gen_expr_closed in Hm.
    gen_step Hrun. gen_step Hrun.
    apply gen_ret_Ok in Hrun as [= -> ->]. cbn [stmt_calls assign_expr].
    apply closed_inline_comment, closed_store_tos, closed_insert;
      [done|apply closed_new].
Qed.



Example loop_links_alone :
  match gen_stmt (Stmt_WhileLoop (Expr_Lit (Lit_Int (mkInt 0)))
                    (Stmt_Expr (Expr_Lit (Lit_Int (mkInt 7)))))
          (mkGenState Namespace.new (-1)) with
  | Ok (u, _) =>
      match Unit.link u with
      | Ok u' => Unit.instrs u'
                 = [mkInstr InstrKind.Jmp (Some 2);
                    mkInstr InstrKind.Push (Some 7);
                    mkInstr InstrKind.Pop None;
                    mkInstr InstrKind.Push (Some 0);
                    mkInstr InstrKind.JmpT (Some 0)]
      | Raise _ => False
      end
  | Raise _ => False
  end.
Proof. by vm_compute. Qed.

(** ** The layout of a block *)

Lemma gen_each_stmt_threaded children :
  ∀ s units s',
    gen_each gen_stmt children s = Ok (units, s') →
    length units = length children
    ∧ ∀ (i : nat) child unit,
        children !! i = Some child → units !! i = Some unit →
        ∃ si',
          gen_stmt child
            (leak (sum_list_with stmt_count (take i children))
               (sum_list_with while_count (take i children)) s)
          = Ok (unit, si').
Proof.
  induction children as [|x l IH]; intros s units s' Hrun; cbn in Hrun.
  - apply gen_ret_Ok in Hrun as [= -> ->]. split; [done|].
    intros i child unit Hi. by rewrite lookup_nil in Hi.
  - gen_step Hrun. gen_step Hrun. apply gen_ret_Ok in Hrun as [= -> ->].
    pose proof (gen_stmt_state _ _ _ _ Hm) as Hs0.
    apply IH in Hm0 as [Hlen Hrest]. split; [cbn; by rewrite Hlen|].
    intros [|i] child unit Hc Hu; cbn in Hc, Hu.
    + simplify_eq. cbn. rewrite leak_0. by eexists.
    + destruct (Hrest i child unit Hc Hu) as [si' Hrun'].
      exists si'. rewrite <- Hrun'. cbn [take sum_list_with].
      by rewrite Hs0, leak_leak.
Qed.



(** ** The labels of a statement's unit *)



(** ** The intrinsic functions *)

Lemma here_comment c u : Unit.here (Unit.comment c u) = Unit.here u.
Proof. reflexivity. Qed.

Lemma here_label name u : Unit.here (Unit.label name u) = Unit.here u.
Proof. reflexivity. Qed.

Lemma here_inline_comment c u :
  Unit.here (Unit.inline_comment c u) = Unit.here u.
Proof. reflexivity. Qed.

Lemma here_load_tos offset u :
  Unit.here (Unit.load_tos offset u)
  = Unit.here u + if decide (offset = 0) then 3 else 5.
Proof.
  unfold Unit.load_tos, Unit.load_tos_ptr.
  destruct (decide (offset = 0)); unfold_emitters;
    rewrite here_inline_comment, !here_add_instr; lia.
Qed.

Lemma instrs_load_tos offset u :
  Unit.instrs (Unit.load_tos offset u)
  = Unit.instrs u
    ++ [mkInstr InstrKind.Push (Some _TOS_ADDR_PTR);
        mkInstr InstrKind.Load None]
    ++ (if decide (offset = 0) then []
        else [mkInstr InstrKind.Push (Some offset);
              mkInstr InstrKind.Sub None])
    ++ [mkInstr InstrKind.Load None].
Proof.
  unfold Unit.load_tos, Unit.load_tos_ptr.
  destruct (decide (offset = 0)); unfold_emitters;
    rewrite !instrs_inline_comment, !instrs_add_instr, <- !app_assoc; done.
Qed.

Ltac intrinsics_chain :=
  unfold Unit.intrinsics; cbn [foldl Unit.binary_ops Unit.unary_ops];
  unfold Unit.ret, Unit.rot, Unit.pop, Unit.halt, Unit.print, Unit.push,
    Unit.add, Unit.sub, Unit.shl.

Lemma instrs_intrinsics u :
  Unit.instrs (Unit.intrinsics u)
  = Unit.instrs u ++ Unit.instrs (Unit.intrinsics Unit.new).
Proof.
  set (table := Unit.instrs (Unit.intrinsics Unit.new)).
  vm_compute in table. subst table. intrinsics_chain.
  repeat first
    [ rewrite instrs_comment
    | rewrite instrs_label
    | rewrite instrs_add_instr
    | rewrite instrs_load_tos
    | rewrite instrs_insert ].
  rewrite <- !app_assoc. reflexivity.
Qed.

Lemma here_intrinsics u :
  Unit.here (Unit.intrinsics u) = Unit.here u + 52.
Proof.
  unfold Unit.here. rewrite instrs_intrinsics, length_app.
  change (length (Unit.instrs (Unit.intrinsics Unit.new))) with 52%nat. lia.
Qed.

Lemma labels_insert_empty unit u :
  Unit.labels unit = ∅ →
  Unit.labels (Unit.insert unit u) = Unit.labels u.
Proof.
  intros Hempty. cbn. rewrite Hempty, fmap_empty. apply (left_id_L ∅ (∪)).
Qed.

Lemma labels_intrinsics u :
  Unit.labels (Unit.intrinsics u)
  = ((λ off, Unit.here u + off) <$> intrinsic_offsets) ∪ Unit.labels u.
Proof.
  apply map_eq. intros name.
  rewrite lookup_union, lookup_fmap. unfold intrinsic_offsets.
  cbn [list_to_map foldr uncurry fst snd].
  intrinsics_chain.
  repeat first
    [ rewrite labels_comment
    | rewrite labels_add_instr
    | rewrite labels_load_tos
    | rewrite labels_label
    | rewrite labels_insert_empty by reflexivity
    | rewrite here_comment
    | rewrite here_label
    | rewrite here_add_instr
    | rewrite here_load_tos
    | rewrite here_insert ].
  change (Unit.here Unit.new) with 0.
  destruct (decide (1 = 0)) as [?|_]; [lia|].
  destruct (decide (0 = 0)) as [_|?]; [|lia].
  destruct (decide (name = "return")) as [->|?];
    [|destruct (decide (name = "exit")) as [->|?];
      [|destruct (decide (name = "print")) as [->|?];
        [|destruct (decide (name = "shl")) as [->|?];
          [|destruct (decide (name = "sub")) as [->|?];
            [|destruct (decide (name = "add")) as [->|?]]]]]];
    repeat first [ rewrite lookup_insert_eq
                 | rewrite lookup_insert_ne by done ];
    rewrite ?lookup_empty; cbn;
    destruct (Unit.labels u !! _); cbn; try done; f_equal; lia.
Qed.


Example intrinsics_shadow_print :
  let u := Unit.new |> Unit.label "print" |> Unit.push 1 |> Unit.ret
           |> Unit.call "print" in
  Unit.labels u !! "print" = Some 0
  ∧ Unit.labels (Unit.intrinsics u) !! "print" = Some 36
  ∧ match Unit.link (Unit.intrinsics u) with
    | Ok u' => Unit.instrs u' !! 2%nat
               = Some (mkInstr InstrKind.Call (Some 35))
    | Raise _ => False
    end.
Proof. by vm_compute. Qed.

(** ** The frame size analyzer *)

